(** * Treasury DTS dashboard: enrichment and aggregation pipeline

    A shallow embedding of [app/lib/dts_loader.py], [app/pages/1_Flows.py]
    and [app/pages/2_Drilldown.py]: the two loaders with their schema
    checks, the enrichment join, the aggregation by cabinet, agency and
    program, the top-N bucketing, the two Sankey builders, the file
    discovery ([_find_first_csv], over the listing of the folder), the net
    table, the default cabinet, the unmapped diagnostics and the arguments
    of the date control.  The file system, the Streamlit widgets and the
    Plotly rendering are not modelled: a loader takes the table
    [pd.read_csv] returns, a page takes the values of its controls.

    Conventions of the embedding:
    - a DataFrame is a list of rows (row order is the frame's order), each
      row a record of the columns the code touches;
    - a [str] is the string of its UTF-8 bytes; a string cell is
      [option string], [None] being pandas' missing value ([NaN] / [<NA>]);
    - amounts are IEEE-754 binary64 values ([spec_float] at precision 53),
      with the operations of [SpecFloat]; the transaction loader has a
      second instance for an amount column that pandas types int64, whose
      amounts are integers with the wrap-around of 64 bits written out;
    - a Python [set] is a [gset], a [dict] a [gmap];
    - a raised exception is a value of type [exn]. *)

From Stdlib Require Import ZArith Ascii String SpecFloat.
From stdpp Require Import base option list sorting strings gmap.

(** ** Strings and cells *)

Abbreviation cell := (option string).

(** A [str] is held as its UTF-8 bytes.  [str.isspace] on the ASCII range:
    TAB, LF, VT, FF, CR, the four separators FS, GS, RS, US, and the
    space. *)
Definition is_space (c : ascii) : bool :=
  let n := N_of_ascii c in
  ((9 <=? n) && (n <=? 13) || (28 <=? n) && (n <=? 32))%N.

(** The whitespace of two bytes, U+0085 and U+00A0 ([C2 85], [C2 A0]), and
    of three: U+1680 ([E1 9A 80]), U+2000 to U+200A, U+2028, U+2029 and
    U+202F ([E2 80 80] to [E2 80 8A], [E2 80 A8], [E2 80 A9], [E2 80 AF]),
    U+205F ([E2 81 9F]) and U+3000 ([E3 80 80]). *)
Definition is_space2 (c d : ascii) : bool :=
  let d := N_of_ascii d in
  ((N_of_ascii c =? 194) && ((d =? 133) || (d =? 160)))%N.

Definition is_space3 (c d e : ascii) : bool :=
  let c := N_of_ascii c in
  let d := N_of_ascii d in
  let e := N_of_ascii e in
  ((c =? 225) && (d =? 154) && (e =? 128)
   || (c =? 226) && (d =? 128)
      && ((128 <=? e) && (e <=? 138) || (e =? 168) || (e =? 169) || (e =? 175))
   || (c =? 226) && (d =? 129) && (e =? 159)
   || (c =? 227) && (d =? 128) && (e =? 128))%N.

Fixpoint lstrip (s : string) : string :=
  match s with
  | EmptyString => EmptyString
  | String c s1 =>
      if is_space c then lstrip s1
      else match s1 with
           | EmptyString => s
           | String d s2 =>
               if is_space2 c d then lstrip s2
               else match s2 with
                    | EmptyString => s
                    | String e s3 => if is_space3 c d e then lstrip s3 else s
                    end
           end
  end.

(** The string is cut where what follows is whitespace to the end. *)
Fixpoint rstrip (s : string) : string :=
  match s with
  | EmptyString => EmptyString
  | String c s' =>
      match lstrip s with
      | EmptyString => EmptyString
      | _ => String c (rstrip s')
      end
  end.

(** [s.strip()] *)
Definition strip (s : string) : string := rstrip (lstrip s).

(** [col.astype("string").str.strip()] on one cell: missing stays missing. *)
Definition str_strip (c : cell) : cell := strip <$> c.

(** [col.fillna(v)] on one cell. *)
Definition fillna (v : string) (c : cell) : cell :=
  match c with
  | None => Some v
  | Some s => Some s
  end.

(** [col.isin(labels)] on one cell: a missing value is in no list. *)
Definition isin (c : cell) (labels : list string) : bool :=
  match c with
  | Some s => bool_decide (s ∈ labels)
  | None => false
  end.

(** [col != label] on one cell, as a row mask: a missing value does not
    select the row. *)
Definition ne_label (c : cell) (label : string) : bool :=
  match c with
  | Some s => bool_decide (s ≠ label)
  | None => false
  end.

(** [col == label] on one cell, as a row mask. *)
Definition eq_label (c : cell) (label : string) : bool :=
  match c with
  | Some s => bool_decide (s = label)
  | None => false
  end.

(** ** Amounts: binary64 *)

Abbreviation float64 := spec_float.

Definition prec : Z := 53.
Definition emax : Z := 1024.

Definition f64_mul : float64 → float64 → float64 := SFmul prec emax.
Definition f64_add : float64 → float64 → float64 := SFadd prec emax.
Definition f64_of_Z (z : Z) : float64 := binary_normalize prec emax z 0 false.
Definition f64_zero : float64 := S754_zero false.

Definition f64_isnan (x : float64) : bool :=
  match x with
  | S754_nan => true
  | _ => false
  end.

(** [x == y], [x != y], [x < y] and [x <= y] of two floats: every
    comparison with NaN is false, except [!=]. *)
Definition f64_eqb (x y : float64) : bool := SFeqb x y.
Definition f64_neb (x y : float64) : bool := negb (SFeqb x y).
Definition f64_ltb (x y : float64) : bool := SFltb x y.
Definition f64_leb (x y : float64) : bool := SFleb x y.

(** [col.fillna(0.0)] on one float. *)
Definition fillna0 (x : float64) : float64 :=
  if f64_isnan x then f64_zero else x.

(** Summation of a float column left to right.  pandas' own reductions
    (compensated, NaN-skipping) are not part of the repository: the
    aggregation code below takes the reduction as a parameter [fsum], and
    [naive_sum] is the instance used to run it. *)
Definition naive_sum (xs : list float64) : float64 :=
  foldl f64_add f64_zero xs.

(** ** Exceptions and their messages *)

Inductive exn :=
  | ValueError (msg : string)
  | KeyError (key : string).

(** [repr] of a [str] without quotes, backslashes or control characters
    (column names), and of a list of them: ['a', 'b']. *)
Definition py_repr_str (s : string) : string := "'" +:+ s +:+ "'".

Definition py_repr_list (l : list string) : string :=
  "[" +:+ String.concat ", " (py_repr_str <$> l) +:+ "]".

(** [sorted(s)] of a set of strings. *)
Definition sorted (s : gset string) : list string :=
  merge_sort String.le (elements s).

(** Substring test, used to read error messages. *)
Fixpoint is_prefix (p s : string) : bool :=
  match p, s with
  | EmptyString, _ => true
  | String a p', String b s' => bool_decide (a = b) && is_prefix p' s'
  | String _ _, EmptyString => false
  end.

Fixpoint contains (p s : string) : bool :=
  is_prefix p s ||
  match s with
  | EmptyString => false
  | String _ s' => contains p s'
  end.

(** ** app/lib/dts_loader.py *)

(** *** The two input files, as [pd.read_csv] returns them *)

(** What [pd.to_datetime(col, errors="coerce")] makes of a cell: a
    timestamp (seconds since the epoch), or NaT for a cell it cannot parse. *)
Inductive datetime :=
  | Timestamp (seconds : Z)
  | NaT.

(** A cell of the amount column before [pd.to_numeric], in a column that
    [pd.to_numeric] returns as float64: a number (or a text that reads as
    one), or anything else.  pandas types a column as a whole: a column
    whose cells are all integers is int64 instead, and has its own record
    and its own instance of the loader below ([dw_csv_int64],
    [load_deposits_withdrawals_int64]). *)
Inductive amount_cell :=
  | Numeric (x : float64)
  | NonNumeric (text : string).

(** [pd.to_numeric(col, errors="coerce")] on one cell. *)
Definition to_numeric (c : amount_cell) : float64 :=
  match c with
  | Numeric x => x
  | NonNumeric _ => S754_nan
  end.

Module Txn.
(** A row of the deposits/withdrawals table, restricted to the six
    required columns; [D] and [A] are the types of the date and of the
    amount column, which the loader changes as it goes. *)
Record row (D A : Type) := Row {
  record_date : D;
  account_type : cell;
  transaction_type : cell;
  transaction_catg : cell;
  transaction_catg_desc : cell;
  transaction_today_amt : A
}.
Global Arguments Row {D A} _ _ _ _ _ _.
Global Arguments record_date {D A} _.
Global Arguments account_type {D A} _.
Global Arguments transaction_type {D A} _.
Global Arguments transaction_catg {D A} _.
Global Arguments transaction_catg_desc {D A} _.
Global Arguments transaction_today_amt {D A} _.

(** [df[col] = f(df[col])] for the date, the amount and the four string
    columns. *)
Definition map_date {D D' A} (f : D → D') (r : row D A) : row D' A :=
  Row (f (record_date r)) (account_type r) (transaction_type r)
      (transaction_catg r) (transaction_catg_desc r) (transaction_today_amt r).

Definition map_amt {D A A'} (f : A → A') (r : row D A) : row D A' :=
  Row (record_date r) (account_type r) (transaction_type r)
      (transaction_catg r) (transaction_catg_desc r) (f (transaction_today_amt r)).

Definition map_strings {D A} (f : cell → cell) (r : row D A) : row D A :=
  Row (record_date r) (f (account_type r)) (f (transaction_type r))
      (f (transaction_catg r)) (f (transaction_catg_desc r)) (transaction_today_amt r).

(** The join key of the enrichment. *)
Definition key {D A} (r : row D A) : cell * cell :=
  (transaction_catg r, transaction_catg_desc r).
End Txn.

(** The deposits/withdrawals file, when its amount column is float64 after
    [pd.to_numeric] (a float64 column, or a column of texts of which one,
    on a row with a date, does not read as an integer): its header and its
    rows.  The cells of the date column are given as [pd.to_datetime] reads
    them. *)
Record dw_csv := {
  dw_columns : list string;
  dw_rows : list (Txn.row datetime amount_cell)
}.

(** A loaded transaction: a parsed date, an amount in dollars. *)
Abbreviation txn := (Txn.row Z float64).

Module Mapping.
(** A row of the category map, restricted to the five required columns
    (the columns [enrich_with_rollups] selects). *)
Record row := Row {
  transaction_catg : cell;
  transaction_catg_desc : cell;
  cabinet_supercategory : cell;
  agency_rollup : cell;
  program_rollup : cell
}.

Definition map_strings (f : cell → cell) (r : row) : row :=
  Row (f (transaction_catg r)) (f (transaction_catg_desc r))
      (f (cabinet_supercategory r)) (f (agency_rollup r)) (f (program_rollup r)).

Definition key (r : row) : cell * cell :=
  (transaction_catg r, transaction_catg_desc r).

Global Instance row_eq_dec : EqDecision row.
Proof. solve_decision. Defined.
End Mapping.

(** The mapping file, read with [dtype=str]: its header as written in the
    file, and its rows.  A row's field holds the cell found under the
    column that carries the field's name once the header is normalised
    (stripped, legacy name renamed).  This supposes that one column
    carries it: on a header in which two names are equal once stripped,
    the code passes the schema check and then raises [AttributeError] at
    its first [m[col].astype("string").str] on such a name (line 68 on),
    which [load_category_map] below does not model. *)
Record map_csv := {
  map_columns : list string;
  map_rows : list Mapping.row
}.

(** *** load_category_map *)

Definition map_required : gset string :=
  {[ "transaction_catg"; "transaction_catg_desc"; "cabinet_supercategory";
     "agency_rollup"; "program_rollup" ]}.

(** [m.columns = [c.strip() for c in m.columns]], then the rename of the
    legacy column name when the canonical one is absent. *)
Definition normalise_columns (columns : list string) : list string :=
  let columns := strip <$> columns in
  if bool_decide ("transaction_cetg_desc" ∈ columns)
     && negb (bool_decide ("transaction_catg_desc" ∈ columns))
  then (λ c, if bool_decide (c = "transaction_cetg_desc")
             then "transaction_catg_desc" else c) <$> columns
  else columns.

(** [m.drop_duplicates(subset=[...], keep="first")]: a row is kept when no
    earlier row has its key; missing values compare equal. *)
Fixpoint drop_duplicates_from (seen : gset (cell * cell)) (m : list Mapping.row)
    : list Mapping.row :=
  match m with
  | [] => []
  | r :: m' =>
      if decide (Mapping.key r ∈ seen) then drop_duplicates_from seen m'
      else r :: drop_duplicates_from ({[ Mapping.key r ]} ∪ seen) m'
  end.

Definition drop_duplicates (m : list Mapping.row) : list Mapping.row :=
  drop_duplicates_from ∅ m.

Definition load_category_map (file : map_csv) : exn + list Mapping.row :=
  let columns := normalise_columns (map_columns file) in
  let missing := map_required ∖ list_to_set columns in
  if decide (missing ≠ ∅) then
    inl (ValueError ("Mapping file missing columns: " +:+ py_repr_list (sorted missing)
                     +:+ ". Found: " +:+ py_repr_list columns))
  else
    let m := Mapping.map_strings str_strip <$> map_rows file in
    inr (drop_duplicates m).

(** *** load_deposits_withdrawals, on a float64 amount column *)

Definition dw_required : gset string :=
  {[ "record_date"; "account_type"; "transaction_type"; "transaction_catg";
     "transaction_catg_desc"; "transaction_today_amt" ]}.

Definition tga_totals : list string :=
  [ "Treasury General Account Total Deposits";
    "Treasury General Account Total Withdrawals" ].

(** [df[df["record_date"].notna()]] on one row. *)
Definition notna_date {A} (r : Txn.row datetime A) : option (Txn.row Z A) :=
  match Txn.record_date r with
  | Timestamp t => Some (Txn.map_date (λ _, t) r)
  | NaT => None
  end.

Definition million : float64 := f64_of_Z 1000000.

Definition load_deposits_withdrawals (file : dw_csv) : exn + list txn :=
  let missing := dw_required ∖ list_to_set (dw_columns file) in
  if decide (missing ≠ ∅) then
    inl (ValueError ("Deposits/Withdrawals CSV missing columns: "
                     +:+ py_repr_list (sorted missing)))
  else
    let df := omap notna_date (dw_rows file) in
    let df := Txn.map_amt (λ c, fillna0 (to_numeric c)) <$> df in
    let df := Txn.map_amt (λ x, f64_mul x million) <$> df in
    let df := Txn.map_strings str_strip <$> df in
    let df := filter (λ r, isin (Txn.account_type r) tga_totals = false) df in
    let df := filter (λ r, f64_neb (Txn.transaction_today_amt r) f64_zero = true) df in
    inr df.

(** *** load_deposits_withdrawals, on an int64 amount column *)

(** The deposits/withdrawals file, when its amount column is int64 after
    [pd.to_numeric]: every cell of the column is an integer that fits 64
    bits (as in a file that writes the amounts in whole millions).  Rows
    without a date are dropped before the amounts are read (line 102); in
    a column of texts they may hold anything, and are left out here. *)
Record dw_csv_int64 := {
  dwi_columns : list string;
  dwi_rows : list (Txn.row datetime Z)
}.

(** The value an int64 operation stores: the result modulo 2^64, read as a
    signed number. *)
Definition int64_wrap (z : Z) : Z := ((z + 2 ^ 63) `mod` 2 ^ 64 - 2 ^ 63)%Z.

Definition i64_mul (x y : Z) : Z := int64_wrap (x * y).

(** The same lines 85-119 on such a column: [pd.to_numeric] and
    [fillna(0.0)] leave an int64 column as it is (it has no missing
    value), [* 1_000_000] is the int64 product, which wraps without an
    error, and [!= 0] compares integers. *)
Definition load_deposits_withdrawals_int64 (file : dw_csv_int64)
    : exn + list (Txn.row Z Z) :=
  let missing := dw_required ∖ list_to_set (dwi_columns file) in
  if decide (missing ≠ ∅) then
    inl (ValueError ("Deposits/Withdrawals CSV missing columns: "
                     +:+ py_repr_list (sorted missing)))
  else
    let df := omap notna_date (dwi_rows file) in
    let df := Txn.map_amt (λ z, i64_mul z 1000000) <$> df in
    let df := Txn.map_strings str_strip <$> df in
    let df := filter (λ r, isin (Txn.account_type r) tga_totals = false) df in
    let df := filter (λ r, Txn.transaction_today_amt r ≠ 0%Z) df in
    inr df.

(** *** enrich_with_rollups *)

Module Enriched.
(** A transaction with the three rollup columns of the mapping. *)
Record row := Row {
  txn_of : txn;
  cabinet_supercategory : cell;
  agency_rollup : cell;
  program_rollup : cell
}.

Definition key (r : row) : cell * cell := Txn.key (txn_of r).

(** [out[col] = out[col].fillna(v)] for the three rollup columns. *)
Definition fill_rollups (v : string) (r : row) : row :=
  Row (txn_of r) (fillna v (cabinet_supercategory r))
      (fillna v (agency_rollup r)) (fillna v (program_rollup r)).
End Enriched.

(** [df.merge(mapping[...], on=[...], how="left")]: each transaction, in
    order, once per mapping row with its key (in the mapping's order), or
    once with missing rollups when there is none.  Missing key values match
    each other. *)
Definition merge_left (df : list txn) (mapping : list Mapping.row) : list Enriched.row :=
  df ≫= λ t,
    match filter (λ m, Mapping.key m = Txn.key t) mapping with
    | [] => [ Enriched.Row t None None None ]
    | ms => (λ m, Enriched.Row t (Mapping.cabinet_supercategory m)
                    (Mapping.agency_rollup m) (Mapping.program_rollup m)) <$> ms
    end.

Definition enrich_with_rollups (df : list txn) (mapping : list Mapping.row)
    : list Enriched.row :=
  Enriched.fill_rollups "Unmapped" <$> merge_left df mapping.

(** ** Frame operations shared by the two pages *)

(** [ts.date()]: the calendar day of a timestamp. *)
Definition date_of (t : Z) : Z := (t `div` 86400)%Z.

(** A stable sort by insertion: [le x y] says that [x] may stand before
    [y]; rows that compare equal keep their order.  It stands for
    [sort_values] on several columns, which pandas computes with a stable
    lexicographic sort. *)
Section stable_sort.
Context {A : Type} (le : A → A → bool).

Fixpoint insert_sorted (x : A) (l : list A) : list A :=
  match l with
  | [] => [x]
  | y :: l' => if le x y then x :: l else y :: insert_sorted x l'
  end.

Definition stable_sort (l : list A) : list A := foldr insert_sorted [] l.
End stable_sort.

(** Descending order on floats with NaN last ([ascending=False],
    [na_position="last"]): [desc_le x y] when [x] may stand before [y]. *)
Definition desc_le (x y : float64) : bool :=
  f64_isnan y || (negb (f64_isnan x) && f64_leb y x).

(** Lexicographic order on pairs of strings (a group key of two columns). *)
Definition pair_le (p q : string * string) : Prop :=
  p.1 ≠ q.1 ∧ String.le p.1 q.1 ∨ p.1 = q.1 ∧ String.le p.2 q.2.

Global Instance pair_le_dec : RelDecision pair_le.
Proof. intros p q. unfold pair_le. apply _. Defined.

Section aggregation.
(** The float reduction behind [.sum()]. *)
Context (fsum : list float64 → float64).

(** [df.groupby(key, as_index=False)[amt].sum()]: one row per distinct
    key, in ascending key order ([R]); rows with a missing key are
    dropped; a group sums its amounts in row order. *)
Definition groupby_sum {A K : Type} `{Countable K} (R : relation K) `{!RelDecision R}
    (key : A → option K) (amt : A → float64) (df : list A) : list (K * float64) :=
  (λ k, (k, fsum (amt <$> filter (λ r, key r = Some k) df)))
    <$> merge_sort R (elements (list_to_set (omap key df) : gset K)).
End aggregation.

(** The figure handed to the renderer: node labels, and the edges as three
    parallel lists. *)
Record sankey := Sankey {
  label : list string;
  source : list nat;
  target : list nat;
  value : list float64
}.

(** How a page run ends: it stops early with a message ([st.error] or
    [st.warning], then [st.stop()]), it plots a figure, or it raises. *)
Inductive outcome :=
  | Stop (msg : string)
  | Plot (fig : sankey)
  | Raise (e : exn).

(** [{label: i for i, label in enumerate(nodes)}]: a later position
    overwrites an earlier one with the same label. *)
Definition node_index (nodes : list string) : gmap string nat :=
  foldl (λ m il, <[il.2 := il.1]> m) ∅ (zip (seq 0 (length nodes)) nodes).

(** [node_index[x]]: raises [KeyError] off the dictionary. *)
Definition lookup_node (idx : gmap string nat) (x : string) : exn + nat :=
  match idx !! x with
  | Some i => inr i
  | None => inl (KeyError x)
  end.

Definition bind {A B} (m : exn + A) (k : A → exn + B) : exn + B :=
  match m with
  | inl e => inl e
  | inr a => k a
  end.

Notation "'let*' x := m 'in' k" := (bind m (λ x, k))
  (at level 10, x name, m at level 100, k at level 200).

(** [[f(x) for x in l]] where [f] may raise. *)
Fixpoint traverse {A B} (f : A → exn + B) (l : list A) : exn + list B :=
  match l with
  | [] => inr []
  | x :: l' => let* y := f x in let* ys := traverse f l' in inr (y :: ys)
  end.

Definition run (m : exn + sankey) : outcome :=
  match m with
  | inl e => Raise e
  | inr fig => Plot fig
  end.

(** The date-range and unmapped filters both pages start with. *)
Definition select_range (df : list Enriched.row) (start_date end_date : Z)
    (show_unmapped : bool) : list Enriched.row :=
  let dff := filter (λ r, (start_date ≤ date_of (Txn.record_date (Enriched.txn_of r)))%Z
                          ∧ (date_of (Txn.record_date (Enriched.txn_of r)) ≤ end_date)%Z) df in
  if show_unmapped then dff
  else filter (λ r, ne_label (Enriched.cabinet_supercategory r) "Unmapped" = true) dff.

Definition amt_of (r : Enriched.row) : float64 :=
  Txn.transaction_today_amt (Enriched.txn_of r).

Definition of_type (txn_type : string) (r : Enriched.row) : Prop :=
  eq_label (Txn.transaction_type (Enriched.txn_of r)) txn_type = true.

Global Instance of_type_dec txn_type r : Decision (of_type txn_type r).
Proof. unfold of_type. apply _. Defined.

(** [get_enriched], the first step of both pages. *)
Definition get_enriched (dw_file : dw_csv) (map_file : map_csv) : exn + list Enriched.row :=
  let* df := load_deposits_withdrawals dw_file in
  let* mapping := load_category_map map_file in
  inr (enrich_with_rollups df mapping).

(** ** app/pages/1_Flows.py: the cabinet-level gross flow *)

Module Flows.
Definition tga_node : string := "Treasury General Account (TGA)".

Definition dep_node (r : string * float64) : string := "Deposits: " +:+ r.1.
Definition wdr_node (r : string * float64) : string := "Withdrawals: " +:+ r.1.

(** From [dep_by_cab] and [wdr_by_cab] (cabinet, sum) to the figure. *)
Definition build (dep_by_cab wdr_by_cab : list (string * float64)) : exn + sankey :=
  let dep_nodes := dep_node <$> dep_by_cab in
  let wdr_nodes := wdr_node <$> wdr_by_cab in
  let nodes := dep_nodes ++ [tga_node] ++ wdr_nodes in
  let idx := node_index nodes in
  let* sources := traverse (lookup_node idx) dep_nodes in
  let* tga := lookup_node idx tga_node in
  let targets := replicate (length dep_by_cab) tga in
  let values := snd <$> dep_by_cab in
  let* tga' := lookup_node idx tga_node in
  let sources := sources ++ replicate (length wdr_by_cab) tga' in
  let* targets' := traverse (lookup_node idx) wdr_nodes in
  let targets := targets ++ targets' in
  let values := values ++ (snd <$> wdr_by_cab) in
  inr (Sankey nodes sources targets values).

Section page.
Context (fsum : list float64 → float64).

Definition by_cabinet (txn_type : string) (dff : list Enriched.row)
    : list (string * float64) :=
  groupby_sum fsum String.le Enriched.cabinet_supercategory amt_of
    (filter (of_type txn_type) dff).

(** The page in its "Gross flows (Sankey)" view, from line 57 on: it takes
    the range the date control returned ([start_date], [end_date]) and the
    value of the check box.  The control itself (lines 32-44, see
    [date_input_default] and [within_bounds]) comes before, and can raise
    on a table that spans less than 365 days. *)
Definition page (df : list Enriched.row) (start_date end_date : Z)
    (show_unmapped : bool) : outcome :=
  let dff := select_range df start_date end_date show_unmapped in
  run (build (by_cabinet "Deposits" dff) (by_cabinet "Withdrawals" dff)).
End page.
End Flows.

(** ** app/pages/2_Drilldown.py: cabinet, agency, program *)

Module Drilldown.
(** A row of [prog]: the sum of one program of one agency. *)
Record prog_row := ProgRow {
  agency_rollup : string;
  program_rollup : string;
  amt : float64
}.

Definition other_label : string := "Other (all remaining programs)".

(** The order of [prog.sort_values(["agency_rollup", "amt"],
    ascending=[True, False])]. *)
Definition prog_le (r s : prog_row) : bool :=
  if decide (agency_rollup r = agency_rollup s) then desc_le (amt r) (amt s)
  else bool_decide (String.le (agency_rollup r) (agency_rollup s)).

Definition same_agency (a : string) (r : prog_row) : Prop := agency_rollup r = a.

Global Instance same_agency_dec a r : Decision (same_agency a r).
Proof. unfold same_agency. apply _. Defined.

(** [rank(method="first", ascending=False)] of the value [v] standing at
    position [i] of its group: one more than the number of values of the
    group greater than [v], plus the number of values equal to [v] before
    it.  A NaN gets no rank (NaN). *)
Definition rank_first_desc (group : list float64) (i : nat) (v : float64) : option nat :=
  if f64_isnan v then None
  else Some (1 + length (filter (λ w, f64_ltb v w = true) group)
               + length (filter (λ w, f64_eqb w v = true) (take i group))).

(** [prog.groupby("agency_rollup")["amt"].rank(method="first",
    ascending=False)]: the rank of each row within the rows of its agency. *)
Definition rank_within_agency (prog : list prog_row) : list (option nat) :=
  imap (λ i r,
          rank_first_desc (amt <$> filter (same_agency (agency_rollup r)) prog)
            (length (filter (same_agency (agency_rollup r)) (take i prog)))
            (amt r))
       prog.

(** [rank <= n] and [rank > n] as row masks: both are false on NaN. *)
Definition rank_le (n : Z) (r : option nat) : bool :=
  match r with
  | Some k => (Z.of_nat k <=? n)%Z
  | None => false
  end.

Definition rank_gt (n : Z) (r : option nat) : bool :=
  match r with
  | Some k => (n <? Z.of_nat k)%Z
  | None => false
  end.

Section page.
Context (fsum : list float64 → float64).

(** Lines 115-130: keep the top programs of each agency, bucket the
    rest into "Other". *)
Definition bucket (per_agency_top : Z) (prog : list prog_row) : list prog_row :=
  let prog := stable_sort prog_le prog in
  let ranked := zip prog (rank_within_agency prog) in
  let top_prog := fst <$> filter (λ p, rank_le per_agency_top p.2 = true) ranked in
  let other_prog := fst <$> filter (λ p, rank_gt per_agency_top p.2 = true) ranked in
  match other_prog with
  | [] => top_prog
  | _ =>
      let other_prog :=
        (λ p, ProgRow p.1 other_label p.2)
          <$> groupby_sum fsum String.le (λ r, Some (agency_rollup r)) amt other_prog in
      top_prog ++ other_prog
  end.

(** [agency_totals]: the sum per agency, largest first.  pandas sorts a
    single column with an unstable sort, so the order of agencies with
    equal totals is the library's; here they keep their order. *)
Definition agency_totals (x : list Enriched.row) : list (string * float64) :=
  stable_sort (λ r s, desc_le r.2 s.2)
    (groupby_sum fsum String.le Enriched.agency_rollup amt_of x).

(** [prog]: the sum per (agency, program). *)
Definition prog_of (x : list Enriched.row) : list prog_row :=
  (λ p, ProgRow p.1.1 p.1.2 p.2)
    <$> groupby_sum fsum pair_le
          (λ r, a ← Enriched.agency_rollup r; p ← Enriched.program_rollup r; Some (a, p))
          amt_of x.

Definition agency_node (a : string) : string := "Agency: " +:+ a.

Definition program_node (r : prog_row) : string :=
  "Program: " +:+ agency_rollup r +:+ " → " +:+ program_rollup r.

(** Lines 132-162: the nodes and the edges of the figure. *)
Definition build (cabinet : string) (totals : list (string * float64))
    (prog2 : list prog_row) : exn + sankey :=
  let cab_node := cabinet in
  let agency_nodes := (agency_node ∘ fst) <$> totals in
  let program_nodes := program_node <$> prog2 in
  let nodes := [cab_node] ++ agency_nodes ++ program_nodes in
  let idx := node_index nodes in
  let* links1 :=
    traverse (λ r, let* s := lookup_node idx cab_node in
                   let* t := lookup_node idx (agency_node r.1) in
                   inr (s, t, r.2)) totals in
  let* links2 :=
    traverse (λ r, let* s := lookup_node idx (agency_node (agency_rollup r)) in
                   let* t := lookup_node idx (program_node r) in
                   inr (s, t, amt r)) prog2 in
  let links := links1 ++ links2 in
  inr (Sankey nodes ((λ l, l.1.1) <$> links) ((λ l, l.1.2) <$> links) (snd <$> links)).

(** [cab_options]: the cabinets present in the selection. *)
Definition cab_options (dff : list Enriched.row) : list string :=
  sorted (list_to_set (omap Enriched.cabinet_supercategory dff)).

(** The page from line 54 on, for the range the date control returned
    and the cabinet picked in the select box (lines 72-83 only choose the
    entry the box shows first).  The date control (lines 30-42, see
    [date_input_default] and [within_bounds]) comes before, and can raise
    on a table that spans less than 365 days. *)
Definition page (df : list Enriched.row) (start_date end_date : Z)
    (show_unmapped : bool) (txn_type cabinet : string) (per_agency_top : Z) : outcome :=
  let dff := select_range df start_date end_date show_unmapped in
  match cab_options dff with
  | [] => Stop "No data available for the selected date range."
  | _ =>
      let x := filter (λ r, eq_label (Enriched.cabinet_supercategory r) cabinet = true
                            ∧ of_type txn_type r) dff in
      match x with
      | [] => Stop "No rows for that cabinet/transaction type in the selected range."
      | _ => run (build cabinet (agency_totals x) (bucket per_agency_top (prog_of x)))
      end
  end.
End page.
End Drilldown.

(** ** dts_loader.py, lines 10-35: file discovery *)

Inductive not_found :=
  | FileNotFoundError (msg : string).

(** [str.lower()] on the ASCII range. *)
Definition lower_char (c : ascii) : ascii :=
  let n := N_of_ascii c in
  if ((65 <=? n) && (n <=? 90))%N then ascii_of_N (n + 32) else c.

Fixpoint lower (s : string) : string :=
  match s with
  | EmptyString => EmptyString
  | String c s' => String (lower_char c) (lower s')
  end.

(** [c.lower() in f.name.lower()] *)
Definition name_matches (c f : string) : bool := contains (lower c) (lower f).

(** The inner loop [for f in csvs]: the first file whose name holds the
    candidate. *)
Definition first_file (csvs : list string) (c : string) : option string :=
  head (filter (λ f, name_matches c f = true) csvs).

(** The outer loop [for c in candidates]. *)
Fixpoint first_match (candidates csvs : list string) : option string :=
  match candidates with
  | [] => None
  | c :: candidates' =>
      match first_file csvs c with
      | Some f => Some f
      | None => first_match candidates' csvs
      end
  end.

(** [_find_first_csv(candidates)].  [data_raw] is the folder's path as
    printed; [folder] is [None] when the folder does not exist, and
    otherwise the names of its [*.csv] files in the order [glob] yields
    them.  The file found is given by its name. *)
Definition _find_first_csv (data_raw : string) (folder : option (list string))
    (candidates : list string) : not_found + string :=
  match folder with
  | None => inl (FileNotFoundError ("Expected folder not found: " +:+ data_raw))
  | Some [] => inl (FileNotFoundError ("No CSV files found in " +:+ data_raw))
  | Some csvs =>
      match first_match candidates csvs with
      | Some f => inr f
      | None =>
          inl (FileNotFoundError
                 ("Could not auto-detect required CSV. "
                  +:+ "Looked for " +:+ py_repr_list candidates
                  +:+ " in filenames under " +:+ data_raw +:+ ". "
                  +:+ "Found: " +:+ py_repr_list csvs))
      end
  end.

Definition find_deposits_withdrawals_csv (data_raw : string) (folder : option (list string))
    : not_found + string :=
  _find_first_csv data_raw folder
    ["deposits"; "withdrawals"; "operating cash"; "dwoc"; "opcash"].

Definition find_category_map_csv (data_raw : string) (folder : option (list string))
    : not_found + string :=
  _find_first_csv data_raw folder
    ["category_map"; "cat_map"; "mapping"; "rollup"; "opcash_category_map"].

(** ** 1_Flows.py, lines 83-98 and 167-182: the net-by-cabinet table *)

Definition f64_sub : float64 → float64 → float64 := SFsub prec emax.

Record net_row := NetRow {
  cabinet : string;
  deposits : float64;
  withdrawals : float64;
  net : float64
}.

(** The cell of a cabinet in one side of the outer merge: the sum of the
    side's row for the cabinet, NaN when the side has none. *)
Definition side_of (side : list (string * float64)) (c : string) : float64 :=
  match list_find (λ r, r.1 = c) side with
  | Some (_, r) => r.2
  | None => S754_nan
  end.

(** [dep.merge(wdr, on="cabinet_supercategory", how="outer")] for two
    frames with one row per cabinet, as [groupby] returns them: one row per
    cabinet of either frame, cabinets in ascending order. *)
Definition merge_outer (dep wdr : list (string * float64))
    : list (string * float64 * float64) :=
  (λ c, (c, side_of dep c, side_of wdr c))
    <$> sorted (list_to_set (dep.*1 ++ wdr.*1)).

Section net_table.
Context (fsum : list float64 → float64).

(** [net_tbl] (and [cab_tbl], built the same way): the merge, [fillna(0.0)]
    on every cell, the [net] column, and the sort on [withdrawals], largest
    first.  pandas sorts a single column with an unstable sort, so the
    order of cabinets with equal withdrawals is the library's; here they
    keep their order. *)
Definition net_tbl (dff : list Enriched.row) : list net_row :=
  let dep := Flows.by_cabinet fsum "Deposits" dff in
  let wdr := Flows.by_cabinet fsum "Withdrawals" dff in
  let merged := (λ r, (r.1.1, fillna0 r.1.2, fillna0 r.2)) <$> merge_outer dep wdr in
  let tbl := (λ r, NetRow r.1.1 r.1.2 r.2 (f64_sub r.1.2 r.2)) <$> merged in
  stable_sort (λ r s, desc_le (withdrawals r) (withdrawals s)) tbl.
End net_table.

(** ** 2_Drilldown.py, lines 67-83: the cabinet the select box starts on *)

Section default_cabinet.
Context (fsum : list float64 → float64).

(** [tmp]: the sums by cabinet for the transaction type, largest first
    (a sort on one column: rows with equal sums keep their order here). *)
Definition largest_first (txn_type : string) (dff : list Enriched.row)
    : list (string * float64) :=
  stable_sort (λ r s, desc_le r.2 s.2) (Flows.by_cabinet fsum txn_type dff).

(** [default_cab], past the check that [cab_options] is not empty ([None]
    stands for the page that has stopped there): the cabinet kept in the
    session state when the options hold it ([selected] is [None] when the
    state has no such entry); otherwise the cabinet of the first row of
    [tmp], or the first option when [tmp] is empty. *)
Definition default_cab (selected : option string) (txn_type : string)
    (dff : list Enriched.row) : option string :=
  match Drilldown.cab_options dff with
  | [] => None
  | first :: _ =>
      let fallback :=
        match largest_first txn_type dff with
        | r :: _ => r.1
        | [] => first
        end in
      match selected with
      | Some c => if decide (c ∈ Drilldown.cab_options dff) then Some c else Some fallback
      | None => Some fallback
      end
  end.
End default_cabinet.

(** [l.index(x)]: the first position of [x], [ValueError] when [l] does
    not hold it. *)
Definition list_index (x : string) (l : list string) : exn + nat :=
  match list_find (λ y, y = x) l with
  | Some (i, _) => inr i
  | None => inl (ValueError (py_repr_str x +:+ " is not in list"))
  end.

(** ** 1_Flows.py, lines 205-222: the unmapped diagnostics *)

(** Lexicographic order on triples of strings (a group key of three
    columns). *)
Definition triple_le (p q : string * string * string) : Prop :=
  p.1 ≠ q.1 ∧ pair_le p.1 q.1 ∨ p.1 = q.1 ∧ String.le p.2 q.2.

Global Instance triple_le_dec : RelDecision triple_le.
Proof. intros p q. unfold triple_le. apply _. Defined.

(** What the page shows under the figure: a warning with the number of
    unmapped rows and the table [top_unmapped], or a success message. *)
Inductive diagnostics :=
  | UnmappedWarning (rows : nat) (top_unmapped : list (string * string * string * float64))
  | NoUnmapped.

Section unmapped_diagnostics.
Context (fsum : list float64 → float64).

(** [top_unmapped]: the sums by transaction type, category and
    description, the 50 largest (a sort on one column: rows with equal sums
    keep their order here). *)
Definition top_unmapped (unmapped : list Enriched.row)
    : list (string * string * string * float64) :=
  take 50
    (stable_sort (λ r s, desc_le r.2 s.2)
       (groupby_sum fsum triple_le
          (λ r, ty ← Txn.transaction_type (Enriched.txn_of r);
                catg ← Txn.transaction_catg (Enriched.txn_of r);
                desc ← Txn.transaction_catg_desc (Enriched.txn_of r);
                Some (ty, catg, desc))
          amt_of unmapped)).

Definition unmapped_diagnostics (dff : list Enriched.row) : diagnostics :=
  let unmapped :=
    filter (λ r, eq_label (Enriched.cabinet_supercategory r) "Unmapped" = true) dff in
  if decide (0 < length unmapped) then UnmappedWarning (length unmapped) (top_unmapped unmapped)
  else NoUnmapped.
End unmapped_diagnostics.

(** ** 1_Flows.py, lines 32-44, and 2_Drilldown.py, lines 30-42: the date
    control *)

(** [df["record_date"].max()] and [.min()]; [None] stands for the NaT of
    an empty table. *)
Definition max_date (df : list Enriched.row) : option Z :=
  match (λ r, Txn.record_date (Enriched.txn_of r)) <$> df with
  | [] => None
  | t :: ts => Some (foldr Z.max t ts)
  end.

Definition min_date (df : list Enriched.row) : option Z :=
  match (λ r, Txn.record_date (Enriched.txn_of r)) <$> df with
  | [] => None
  | t :: ts => Some (foldr Z.min t ts)
  end.

(** The arguments of [st.date_input]: the default value
    [(default_start.date(), max_date.date())], where [default_start] is
    [max_date - timedelta(days=365)], and the bounds
    [(min_date.date(), max_date.date())]. *)
Definition date_input_default (df : list Enriched.row) : option (Z * Z) :=
  mx ← max_date df; Some (date_of (mx - 365 * 86400), date_of mx).

Definition date_input_bounds (df : list Enriched.row) : option (Z * Z) :=
  mn ← min_date df; mx ← max_date df; Some (date_of mn, date_of mx).

(** What [st.date_input] asks of a range, the default value included: it
    starts no earlier than [min_value] and ends no later than [max_value].
    Streamlit raises otherwise, before the page reads the range; the check
    is Streamlit's, and stands here to say with which ranges the pages
    below run. *)
Definition within_bounds (bounds range : Z * Z) : bool :=
  ((bounds.1 <=? range.1) && (range.2 <=? bounds.2))%Z.

(** * Vocabulary of the statements *)

(** The double nearest to the fraction [n / d], which is how a decimal
    literal such as 12.5 or 0.0001 is read. *)
Definition decimal (n d : Z) : float64 := SFdiv prec emax (f64_of_Z n) (f64_of_Z d).

(** What the loader makes of a raw row whose date parsed as [t]: the four
    string columns stripped, the amount coerced and scaled. *)
Definition loaded (t : Z) (r : Txn.row datetime amount_cell) : txn :=
  Txn.Row t (str_strip (Txn.account_type r)) (str_strip (Txn.transaction_type r))
    (str_strip (Txn.transaction_catg r)) (str_strip (Txn.transaction_catg_desc r))
    (f64_mul (fillna0 (to_numeric (Txn.transaction_today_amt r))) million).

(** The first row of a frame with a given join key. *)
Definition lookup_first (rows : list Mapping.row) (k : cell * cell) : option Mapping.row :=
  head (filter (λ m, Mapping.key m = k) rows).

(** A transaction with the rollups of the first mapping row that has its
    key, missing cells and a missing row read as "Unmapped". *)
Definition enrich_one (rows : list Mapping.row) (t : txn) : Enriched.row :=
  match lookup_first rows (Txn.key t) with
  | Some m =>
      Enriched.Row t (fillna "Unmapped" (Mapping.cabinet_supercategory m))
        (fillna "Unmapped" (Mapping.agency_rollup m))
        (fillna "Unmapped" (Mapping.program_rollup m))
  | None => Enriched.Row t (Some "Unmapped") (Some "Unmapped") (Some "Unmapped")
  end.

Definition unmapped (o : Enriched.row) : Prop :=
  Enriched.cabinet_supercategory o = Some "Unmapped"
  ∧ Enriched.agency_rollup o = Some "Unmapped"
  ∧ Enriched.program_rollup o = Some "Unmapped".

(** A cell that is null or blank. *)
Definition blank (c : cell) : Prop := c = None ∨ c = Some EmptyString.

(** The node list as C5 words it: deposit nodes only for the cabinets whose
    deposit sum is greater than 0. *)
Definition nodes_as_stated (dep_by_cab wdr_by_cab : list (string * float64)) : list string :=
  (Flows.dep_node <$> filter (λ r, f64_ltb f64_zero r.2 = true) dep_by_cab)
  ++ [Flows.tga_node] ++ (Flows.wdr_node <$> wdr_by_cab).

(** The programs of one agency, in the order of the table. *)
Definition children (a : string) (prog : list Drilldown.prog_row) : list Drilldown.prog_row :=
  filter (Drilldown.same_agency a) prog.

(** Largest sum first. *)
Definition by_sum_desc (r s : Drilldown.prog_row) : bool :=
  desc_le (Drilldown.amt r) (Drilldown.amt s).

(** The programs of one agency from the largest sum to the smallest,
    programs with equal sums in the order of the table. *)
Definition ranked (a : string) (prog : list Drilldown.prog_row) : list Drilldown.prog_row :=
  stable_sort by_sum_desc (children a prog).

(** A row whose sum is a number (not NaN). *)
Definition numeric (r : Drilldown.prog_row) : Prop := f64_isnan (Drilldown.amt r) = false.

Global Instance numeric_dec r : Decision (numeric r).
Proof. unfold numeric. apply _. Defined.

(** The rank [rank_within_agency] gives the row [r] at position [i]. *)
Definition rank_at (prog : list Drilldown.prog_row) (i : nat) (r : Drilldown.prog_row)
    : option nat :=
  Drilldown.rank_first_desc
    (Drilldown.amt <$> children (Drilldown.agency_rollup r) prog)
    (length (children (Drilldown.agency_rollup r) (take i prog)))
    (Drilldown.amt r).

(** The rows [rest], which stand from position [i] on, with their ranks. *)
Definition ranked_rows (prog : list Drilldown.prog_row) (i : nat)
    (rest : list Drilldown.prog_row) : list (Drilldown.prog_row * option nat) :=
  imap (λ j r, (r, rank_at prog (i + j) r)) rest.





(** The cell of the net table for one cabinet and one transaction type:
    the sum of the cabinet's rows of that type, 0 when it has none or when
    the sum is NaN. *)
Definition side_total (fsum : list float64 → float64) (txn_type c : string)
    (dff : list Enriched.row) : float64 :=
  match filter (λ r, Enriched.cabinet_supercategory r = Some c ∧ of_type txn_type r) dff with
  | [] => f64_zero
  | rows => fillna0 (fsum (amt_of <$> rows))
  end.

(** * Sample inputs *)

Definition dw_header : list string :=
  [ "record_date"; "account_type"; "transaction_type"; "transaction_catg";
    "transaction_catg_desc"; "transaction_today_amt" ].

Definition raw_row (account : string) (amount : amount_cell)
    : Txn.row datetime amount_cell :=
  Txn.Row (Timestamp 1704412800) (Some account) (Some "Deposits")
    (Some "Taxes") (Some "Taxes") amount.

(** A file with one total line and one movement. *)
Definition tga_file : dw_csv :=
  {| dw_columns := dw_header;
     dw_rows := [ raw_row " Treasury General Account Total Deposits" (Numeric (f64_of_Z 7));
                  raw_row "Treasury General Account (TGA)" (Numeric (f64_of_Z 3)) ] |}.

(** A row of a file whose amounts are whole numbers. *)
Definition int_row (amount : Z) : Txn.row datetime Z :=
  Txn.Row (Timestamp 1704412800) (Some "Treasury General Account (TGA)") (Some "Deposits")
    (Some "Taxes") (Some "Taxes") amount.

Definition int_file (amounts : list Z) : dw_csv_int64 :=
  {| dwi_columns := dw_header; dwi_rows := int_row <$> amounts |}.

Definition amounts_file : dw_csv :=
  {| dw_columns := dw_header;
     dw_rows := [ raw_row "Treasury General Account (TGA)" (Numeric (decimal 125 10));
                  raw_row "Treasury General Account (TGA)" (NonNumeric "n/a");
                  raw_row "Treasury General Account (TGA)" (Numeric (decimal 1 10000)) ] |}.

Definition map_header : list string :=
  [ "transaction_catg"; "transaction_cetg_desc "; "cabinet_supercategory";
    "agency_rollup"; "program_rollup" ].

Definition map_line (catg desc cabinet : string) : Mapping.row :=
  Mapping.Row (Some catg) (Some desc) (Some cabinet) (Some "Agency") None.

(** A mapping file whose first two rows share a key once stripped. *)
Definition dup_file : map_csv :=
  {| map_columns := map_header;
     map_rows := [ map_line "Taxes " "Taxes" "Treasury"; map_line "Taxes" " Taxes" "Defense";
                   map_line "Fees" "Fees" "Interior" ] |}.

Definition a_txn (catg : string) : txn :=
  Txn.Row 1704412800%Z (Some "Treasury General Account (TGA)") (Some "Deposits")
    (Some catg) (Some catg) (f64_of_Z 2000000).

Definition enriched_on (day : Z) (cabinet : string) : Enriched.row :=
  Enriched.Row
    (Txn.Row (day * 86400)%Z (Some "Treasury General Account (TGA)") (Some "Deposits")
       (Some "Taxes") (Some "Taxes") (f64_of_Z 2000000))
    (Some cabinet) (Some "Agency") (Some "Program").

Definition program (agency name : string) (sum : Z) : Drilldown.prog_row :=
  Drilldown.ProgRow agency name (f64_of_Z sum).

(** An agency with five programs, one with two. *)
Definition sums : list Drilldown.prog_row :=
  [ program "IRS" "Audits" 5; program "IRS" "Refunds" 10; program "Mint" "Coins" 4;
    program "IRS" "Fees" 3; program "IRS" "Grants" 7; program "Mint" "Medals" 4;
    program "IRS" "Other taxes" 1 ].



(** The scenario of three transactions and two mapped categories. *)
Definition scenario_dw : dw_csv :=
  {| dw_columns := dw_header;
     dw_rows :=
       [ Txn.Row (Timestamp 1704412800) (Some "Treasury General Account (TGA)")
           (Some "Deposits") (Some "catgA") (Some "catgA") (Numeric (decimal 2 1));
         Txn.Row (Timestamp 1704412800) (Some "Treasury General Account (TGA)")
           (Some "Withdrawals") (Some "catgB") (Some "catgB") (Numeric (decimal 15 10));
         Txn.Row (Timestamp 1704499200) (Some "Treasury General Account (TGA)")
           (Some "Deposits") (Some "catgA") (Some "catgA") (Numeric (decimal 5 10)) ] |}.

Definition scenario_map : map_csv :=
  {| map_columns := map_header;
     map_rows := [ map_line "catgA" "catgA" "Treasury"; map_line "catgB" "catgB" "Defense" ] |}.

(** * Properties *)

(** ** The transaction loader *)

Lemma load_deposits_withdrawals_inr file out :
  load_deposits_withdrawals file = inr out →
  ∀ o, o ∈ out ↔
    ∃ r t, r ∈ dw_rows file ∧ Txn.record_date r = Timestamp t ∧ o = loaded t r
           ∧ isin (Txn.account_type o) tga_totals = false
           ∧ f64_neb (Txn.transaction_today_amt o) f64_zero = true.
Proof.
  unfold load_deposits_withdrawals. case_decide; [done|].
  intros [= <-] o. split.
  - intros Ho.
    apply list_elem_of_filter in Ho as [Hamt Ho].
    apply list_elem_of_filter in Ho as [Htga Ho].
    apply list_elem_of_fmap in Ho as (r3 & -> & Ho).
    apply list_elem_of_fmap in Ho as (r2 & -> & Ho).
    apply list_elem_of_fmap in Ho as (r1 & -> & Ho).
    apply list_elem_of_omap in Ho as (r & Hr & Hdate).
    unfold notna_date in Hdate.
    destruct (Txn.record_date r) as [t|] eqn:Ht; [|done].
    injection Hdate as <-. exists r, t. by destruct r.
  - intros (r & t & Hr & Ht & -> & Htga & Hamt).
    apply list_elem_of_filter. split; [done|].
    apply list_elem_of_filter. split; [done|].
    assert (loaded t r
            = Txn.map_strings str_strip
                (Txn.map_amt (λ x, f64_mul x million)
                   (Txn.map_amt (λ c, fillna0 (to_numeric c))
                      (Txn.map_date (λ _, t) r)))) as -> by (by destruct r).
    do 3 apply list_elem_of_fmap_2.
    apply list_elem_of_omap. exists r. split; [done|].
    unfold notna_date. by rewrite Ht.
Qed.

Lemma load_deposits_withdrawals_total file :
  dw_required ⊆ list_to_set (dw_columns file) →
  ∃ out, load_deposits_withdrawals file = inr out.
Proof.
  intros Hsub. unfold load_deposits_withdrawals.
  case_decide as Hm; [|eauto]. destruct Hm.
  apply elem_of_equiv_empty_L. intros c [Hc Hn]%elem_of_difference.
  by apply Hn, Hsub.
Qed.

(** C3 as the loader has it: no row of the output carries one of the two
    labels of [tga_totals], "Treasury General Account Total Deposits" and
    "Treasury General Account Total Withdrawals", whatever its amount. *)
Theorem tga_totals_excluded file out o :
  load_deposits_withdrawals file = inr out →
  o ∈ out →
  Txn.account_type o ≠ Some "Treasury General Account Total Deposits"
  ∧ Txn.account_type o ≠ Some "Treasury General Account Total Withdrawals".
Proof.
  intros Hload Ho.
  apply (load_deposits_withdrawals_inr _ _ Hload) in Ho
    as (r & t & _ & _ & _ & Htga & _).
  split; intros Heq; rewrite Heq in Htga; by vm_compute in Htga.
Qed.

Lemma tga_totals_excluded_witness :
  load_deposits_withdrawals tga_file
    = inr [ loaded 1704412800 (raw_row "Treasury General Account (TGA)" (Numeric (f64_of_Z 3))) ]
  ∧ Txn.account_type (loaded 1704412800 (raw_row "Treasury General Account (TGA)" (Numeric (f64_of_Z 3))))
      ≠ Some "Treasury General Account Total Deposits".
Proof.
  split; [by vm_compute|].
  eapply (tga_totals_excluded tga_file); [by vm_compute|].
  apply list_elem_of_singleton. reflexivity.
Defined.

(** C3 as stated fails: a row labelled "TGA Total Deposits" goes through
    the loader. *)
Lemma short_tga_label_is_kept :
  load_deposits_withdrawals
    {| dw_columns := dw_header;
       dw_rows := [ raw_row "TGA Total Deposits" (Numeric (f64_of_Z 7)) ] |}
  = inr [ Txn.Row 1704412800%Z (Some "TGA Total Deposits") (Some "Deposits")
            (Some "Taxes") (Some "Taxes") (f64_of_Z 7000000) ].
Proof. by vm_compute. Qed.

(** On a float64 amount column: after loading, an amount is the raw value
    times 1,000,000 in binary64 (12.5 becomes 12,500,000 and 0.0001 becomes
    100), a non-numeric raw value counts as 0 (and its row is dropped), no
    amount of the output equals 0, and a row whose raw amount is 0.0001
    stays (the other two filters allowing: its date parses and it is not a
    TGA total line). *)
Theorem amounts_scaled_and_zero_dropped file out :
  load_deposits_withdrawals file = inr out →
  (∀ o, o ∈ out →
     ∃ r t, r ∈ dw_rows file ∧ Txn.record_date r = Timestamp t ∧ o = loaded t r
            ∧ Txn.transaction_today_amt o
              = f64_mul (fillna0 (to_numeric (Txn.transaction_today_amt r))) million)
  ∧ f64_mul (fillna0 (to_numeric (Numeric (decimal 125 10)))) million = f64_of_Z 12500000
  ∧ f64_mul (fillna0 (to_numeric (Numeric (decimal 1 10000)))) million = f64_of_Z 100
  ∧ (∀ text, fillna0 (to_numeric (NonNumeric text)) = f64_zero)
  ∧ (∀ text r t, r ∈ dw_rows file → Txn.transaction_today_amt r = NonNumeric text →
       loaded t r ∉ out)
  ∧ (∀ o, o ∈ out → f64_eqb (Txn.transaction_today_amt o) f64_zero = false)
  ∧ (∀ r t, r ∈ dw_rows file →
       Txn.transaction_today_amt r = Numeric (decimal 1 10000) →
       Txn.record_date r = Timestamp t →
       isin (str_strip (Txn.account_type r)) tga_totals = false →
       loaded t r ∈ out).
Proof.
  intros Hload.
  pose proof (load_deposits_withdrawals_inr _ _ Hload) as Hout.
  split_and!.
  - intros o (r & t & Hr & Ht & -> & _)%Hout. by exists r, t.
  - by vm_compute.
  - by vm_compute.
  - done.
  - intros text r t _ Hamt (r' & t' & _ & _ & _ & _ & Hne)%Hout.
    simpl in Hne. rewrite Hamt in Hne. by vm_compute in Hne.
  - intros o (r & t & _ & _ & _ & _ & Hne)%Hout.
    unfold f64_neb, f64_eqb in *. by destruct (SFeqb _ _).
  - intros r t Hr Hamt Ht Htga. apply Hout. exists r, t.
    split_and!; [done..|].
    simpl. rewrite Hamt. by vm_compute.
Qed.

Lemma amounts_scaled_and_zero_dropped_witness :
  load_deposits_withdrawals amounts_file
    = inr [ loaded 1704412800 (raw_row "Treasury General Account (TGA)" (Numeric (decimal 125 10)));
            loaded 1704412800 (raw_row "Treasury General Account (TGA)" (Numeric (decimal 1 10000))) ]
  ∧ loaded 1704412800 (raw_row "Treasury General Account (TGA)" (Numeric (decimal 1 10000)))
      ∈ [ loaded 1704412800 (raw_row "Treasury General Account (TGA)" (Numeric (decimal 125 10)));
          loaded 1704412800 (raw_row "Treasury General Account (TGA)" (Numeric (decimal 1 10000))) ].
Proof.
  split; [by vm_compute|].
  eapply (amounts_scaled_and_zero_dropped amounts_file); [by vm_compute| |done..].
  unfold amounts_file; simpl. do 2 right. left.
Defined.

(** *** Whole amounts *)

Lemma int64_wrap_in_range z :
  (- 2 ^ 63 ≤ z < 2 ^ 63)%Z → int64_wrap z = z.
Proof. intros Hz. unfold int64_wrap. rewrite Z.mod_small; lia. Qed.

Lemma int64_wrap_range z : (- 2 ^ 63 ≤ int64_wrap z < 2 ^ 63)%Z.
Proof.
  unfold int64_wrap.
  pose proof (Z.mod_pos_bound (z + 2 ^ 63) (2 ^ 64) ltac:(lia)). lia.
Qed.

Lemma load_deposits_withdrawals_int64_inr file out :
  load_deposits_withdrawals_int64 file = inr out →
  ∀ o, o ∈ out ↔
    ∃ r t, r ∈ dwi_rows file ∧ Txn.record_date r = Timestamp t
           ∧ o = Txn.Row t (str_strip (Txn.account_type r))
                   (str_strip (Txn.transaction_type r))
                   (str_strip (Txn.transaction_catg r))
                   (str_strip (Txn.transaction_catg_desc r))
                   (int64_wrap (Txn.transaction_today_amt r * 1000000))
           ∧ isin (Txn.account_type o) tga_totals = false
           ∧ Txn.transaction_today_amt o ≠ 0%Z.
Proof.
  unfold load_deposits_withdrawals_int64. case_decide; [done|].
  intros [= <-] o. split.
  - intros Ho.
    apply list_elem_of_filter in Ho as [Hamt Ho].
    apply list_elem_of_filter in Ho as [Htga Ho].
    apply list_elem_of_fmap in Ho as (r2 & -> & Ho).
    apply list_elem_of_fmap in Ho as (r1 & -> & Ho).
    apply list_elem_of_omap in Ho as (r & Hr & Hdate).
    unfold notna_date in Hdate.
    destruct (Txn.record_date r) as [t|] eqn:Ht; [|done].
    injection Hdate as <-. exists r, t. by destruct r.
  - intros (r & t & Hr & Ht & -> & Htga & Hamt).
    apply list_elem_of_filter. split; [done|].
    apply list_elem_of_filter. split; [done|].
    assert (Txn.Row t (str_strip (Txn.account_type r)) (str_strip (Txn.transaction_type r))
              (str_strip (Txn.transaction_catg r)) (str_strip (Txn.transaction_catg_desc r))
              (int64_wrap (Txn.transaction_today_amt r * 1000000))
            = Txn.map_strings str_strip
                (Txn.map_amt (λ z, i64_mul z 1000000)
                   (Txn.map_date (λ _, t) r))) as -> by (by destruct r).
    do 2 apply list_elem_of_fmap_2.
    apply list_elem_of_omap. exists r. split; [done|].
    unfold notna_date. by rewrite Ht.
Qed.

(** On an int64 amount column whose products fit 64 bits: after loading,
    an amount is the raw value times 1,000,000, exactly. *)
Lemma whole_amounts_scaled_in_range file out o :
  load_deposits_withdrawals_int64 file = inr out →
  Forall (λ r, (- 2 ^ 63 ≤ Txn.transaction_today_amt r * 1000000 < 2 ^ 63)%Z) (dwi_rows file) →
  o ∈ out →
  ∃ r, r ∈ dwi_rows file
       ∧ Txn.transaction_today_amt o = (Txn.transaction_today_amt r * 1000000)%Z.
Proof.
  intros Hload Hrange Ho.
  apply (load_deposits_withdrawals_int64_inr _ _ Hload) in Ho as (r & t & Hr & _ & -> & _).
  exists r. split; [done|]. simpl. apply int64_wrap_in_range.
  rewrite Forall_forall in Hrange. by apply Hrange.
Qed.

(** C4, on a column of whole amounts of which one is 10^13: the product by
    1,000,000 does not fit 64 bits and wraps to a negative amount; 2^58
    wraps to 0 and its row is dropped.  The same 10^13 in a float64 column
    loads as 10^19. *)
Theorem whole_amounts_wrap :
  load_deposits_withdrawals_int64 (int_file [10000000000000%Z; 7%Z])
  = inr [ Txn.Row 1704412800%Z (Some "Treasury General Account (TGA)") (Some "Deposits")
            (Some "Taxes") (Some "Taxes") (-8446744073709551616)%Z;
          Txn.Row 1704412800%Z (Some "Treasury General Account (TGA)") (Some "Deposits")
            (Some "Taxes") (Some "Taxes") 7000000%Z ]
  ∧ (10000000000000 * 1000000 = 10000000000000000000)%Z
  ∧ load_deposits_withdrawals_int64 (int_file [288230376151711744%Z]) = inr []
  ∧ (288230376151711744 * 1000000 ≠ 0)%Z
  ∧ load_deposits_withdrawals
      {| dw_columns := dw_header;
         dw_rows := [ raw_row "Treasury General Account (TGA)"
                        (Numeric (f64_of_Z 10000000000000)) ] |}
    = inr [ Txn.Row 1704412800%Z (Some "Treasury General Account (TGA)") (Some "Deposits")
              (Some "Taxes") (Some "Taxes") (f64_of_Z 10000000000000000000) ].
Proof. split_and!; by vm_compute. Qed.

(** ** The mapping loader and the enrichment *)

Lemma load_category_map_inr file mapping :
  load_category_map file = inr mapping →
  mapping = drop_duplicates (Mapping.map_strings str_strip <$> map_rows file).
Proof. unfold load_category_map. case_decide; [done|]. by intros [= <-]. Qed.

Lemma drop_duplicates_from_filter seen m k :
  filter (λ r, Mapping.key r = k) (drop_duplicates_from seen m)
  = if decide (k ∈ seen) then [] else take 1 (filter (λ r, Mapping.key r = k) m).
Proof.
  revert seen. induction m as [|r m IH]; intros seen; simpl.
  { by case_decide. }
  destruct (decide (Mapping.key r ∈ seen)) as [Hin|Hnin].
  - rewrite IH. case_decide as Hk; [done|].
    rewrite filter_cons_False; [done|]. by intros <-.
  - destruct (decide (Mapping.key r = k)) as [<-|Hne].
    + rewrite !filter_cons_True by done. rewrite IH.
      rewrite decide_True by (apply elem_of_union_l, elem_of_singleton; reflexivity).
      by rewrite decide_False.
    + rewrite !filter_cons_False by done. rewrite IH.
      destruct (decide (k ∈ seen)) as [Hk|Hk].
      * by rewrite decide_True by (by apply elem_of_union_r).
      * rewrite decide_False; [done|].
        intros [Heq%elem_of_singleton|?]%elem_of_union; [by subst|done].
Qed.

Lemma drop_duplicates_from_elem_of seen m r :
  r ∈ drop_duplicates_from seen m → r ∈ m ∧ Mapping.key r ∉ seen.
Proof.
  revert seen. induction m as [|r' m IH]; intros seen; simpl.
  { by intros ?%elem_of_nil. }
  case_decide as Hin.
  - intros [??]%IH. split; [by right|done].
  - intros [->|[Hr Hk]%IH]%elem_of_cons; [split; [by left|done]|].
    split; [by right|]. intros ?. apply Hk. by apply elem_of_union_r.
Qed.

Lemma drop_duplicates_from_NoDup seen m :
  NoDup (Mapping.key <$> drop_duplicates_from seen m).
Proof.
  revert seen. induction m as [|r m IH]; intros seen; simpl.
  { constructor. }
  case_decide as Hin; [done|].
  rewrite fmap_cons. constructor; [|done].
  intros (r' & Heq & [_ Hk]%drop_duplicates_from_elem_of)%list_elem_of_fmap.
  apply Hk. rewrite <-Heq. apply elem_of_union_l, elem_of_singleton. reflexivity.
Qed.

Lemma NoDup_key_filter (mapping : list Mapping.row) k :
  NoDup (Mapping.key <$> mapping) →
  length (filter (λ m, Mapping.key m = k) mapping) ≤ 1.
Proof.
  induction mapping as [|m mapping IH]; [simpl; lia|].
  rewrite fmap_cons. intros [Hnin Hnd]%NoDup_cons.
  destruct (decide (Mapping.key m = k)) as [<-|Hne].
  - rewrite filter_cons_True by done.
    assert (filter (λ m0, Mapping.key m0 = Mapping.key m) mapping = []) as ->; [|done].
    destruct (filter _ mapping) as [|m' ?] eqn:Hf; [done|].
    assert (m' ∈ filter (λ m0, Mapping.key m0 = Mapping.key m) mapping) as Hm'
      by (rewrite Hf; left).
    apply list_elem_of_filter in Hm' as [Hk Hm'].
    destruct Hnin. rewrite <-Hk. by apply list_elem_of_fmap_2.
  - rewrite filter_cons_False by done. by apply IH.
Qed.

Lemma merge_left_elem_of df mapping o :
  o ∈ merge_left df mapping ↔
  ∃ t, t ∈ df ∧ Enriched.txn_of o = t
       ∧ ((∀ m, m ∈ mapping → Mapping.key m ≠ Txn.key t) ∧ o = Enriched.Row t None None None
          ∨ ∃ m, m ∈ mapping ∧ Mapping.key m = Txn.key t
                 ∧ o = Enriched.Row t (Mapping.cabinet_supercategory m)
                         (Mapping.agency_rollup m) (Mapping.program_rollup m)).
Proof.
  unfold merge_left. rewrite list_elem_of_bind. split.
  - intros (t & Ho & Ht). exists t. split; [done|].
    destruct (filter _ mapping) as [|m ms] eqn:Hf.
    + apply list_elem_of_singleton in Ho as ->. split; [done|]. left. split; [|done].
      intros m Hm Hk. exact (filter_nil_not_elem_of _ _ m Hf Hk Hm).
    + apply list_elem_of_fmap in Ho as (m' & -> & Hm'). split; [done|]. right.
      rewrite <-Hf in Hm'. apply list_elem_of_filter in Hm' as [??]. by exists m'.
  - intros (t & Ht & _ & [[Hno ->]|(m & Hm & Hk & ->)]); exists t; (split; [|done]).
    + destruct (filter _ mapping) as [|m ms] eqn:Hf; [by left|].
      assert (m ∈ filter (λ m, Mapping.key m = Txn.key t) mapping) as Hin
        by (rewrite Hf; left).
      apply list_elem_of_filter in Hin as [??]. by destruct (Hno m).
    + assert (m ∈ filter (λ m, Mapping.key m = Txn.key t) mapping) as Hin
        by (by apply list_elem_of_filter).
      destruct (filter _ mapping) as [|m' ms]; [by apply elem_of_nil in Hin|].
      by apply (list_elem_of_fmap_2
                  (λ m, Enriched.Row t (Mapping.cabinet_supercategory m)
                          (Mapping.agency_rollup m) (Mapping.program_rollup m))).
Qed.

Lemma enrich_with_unique_keys df mapping :
  (∀ k, length (filter (λ m, Mapping.key m = k) mapping) ≤ 1) →
  enrich_with_rollups df mapping = enrich_one mapping <$> df.
Proof.
  intros Huniq. unfold enrich_with_rollups, merge_left.
  induction df as [|t df IH]; [done|].
  rewrite bind_cons, fmap_app, IH, fmap_cons. f_equal.
  unfold enrich_one, lookup_first. specialize (Huniq (Txn.key t)).
  destruct (filter _ mapping) as [|m [|m' ms]]; simpl in *; [done..|lia].
Qed.

Lemma enrich_with_loaded_mapping file mapping df :
  load_category_map file = inr mapping →
  enrich_with_rollups df mapping
  = enrich_one (Mapping.map_strings str_strip <$> map_rows file) <$> df.
Proof.
  intros ->%load_category_map_inr.
  rewrite enrich_with_unique_keys.
  - apply list_fmap_ext. intros _ t _. unfold enrich_one, lookup_first, drop_duplicates.
    rewrite drop_duplicates_from_filter, decide_False by apply not_elem_of_empty.
    by destruct (filter _ _).
  - intros k. apply NoDup_key_filter, drop_duplicates_from_NoDup.
Qed.

(** C7: the loaded mapping has one row per join key, the first of the file
    with that key (keys compared once stripped), and the enrichment reads
    the rollups of that first row only. *)
Theorem mapping_keeps_first_of_each_key file mapping :
  load_category_map file = inr mapping →
  NoDup (Mapping.key <$> mapping)
  ∧ (∀ k, filter (λ m, Mapping.key m = k) mapping
          = take 1 (filter (λ m, Mapping.key m = k)
                      (Mapping.map_strings str_strip <$> map_rows file)))
  ∧ (∀ df, enrich_with_rollups df mapping
           = enrich_one (Mapping.map_strings str_strip <$> map_rows file) <$> df).
Proof.
  intros Hload. split_and!.
  - apply load_category_map_inr in Hload as ->. apply drop_duplicates_from_NoDup.
  - intros k. apply load_category_map_inr in Hload as ->. unfold drop_duplicates.
    by rewrite drop_duplicates_from_filter, decide_False by apply not_elem_of_empty.
  - intros df. by apply enrich_with_loaded_mapping.
Qed.

Lemma mapping_keeps_first_of_each_key_witness :
  load_category_map dup_file
    = inr [ map_line "Taxes" "Taxes" "Treasury"; map_line "Fees" "Fees" "Interior" ]
  ∧ NoDup (Mapping.key <$> [ map_line "Taxes" "Taxes" "Treasury";
                              map_line "Fees" "Fees" "Interior" ]).
Proof.
  split; [by vm_compute|].
  apply (mapping_keeps_first_of_each_key dup_file). by vm_compute.
Defined.

(** C1 as the code has it: the enrichment returns one row per transaction
    when the join keys of the mapping are unique, which holds for every
    mapping the loader returns; with an empty mapping every row is
    "Unmapped" in the three rollup columns. *)
Theorem enrich_keeps_row_count df :
  (∀ mapping, NoDup (Mapping.key <$> mapping) →
     length (enrich_with_rollups df mapping) = length df)
  ∧ (∀ file mapping, load_category_map file = inr mapping →
       length (enrich_with_rollups df mapping) = length df)
  ∧ length (enrich_with_rollups df []) = length df
  ∧ Forall unmapped (enrich_with_rollups df []).
Proof.
  split_and!.
  - intros mapping Hnd. rewrite enrich_with_unique_keys, length_fmap; [done|].
    intros k. by apply NoDup_key_filter.
  - intros file mapping Hload.
    by rewrite (enrich_with_loaded_mapping _ _ _ Hload), length_fmap.
  - rewrite enrich_with_unique_keys, length_fmap; [done|]. intros k. simpl. lia.
  - rewrite enrich_with_unique_keys by (intros k; simpl; lia).
    apply Forall_fmap, Forall_forall. intros t _. by unfold unmapped, enrich_one.
Qed.

Lemma enrich_keeps_row_count_witness :
  length (enrich_with_rollups [a_txn "Taxes"; a_txn "Tolls"]
            [ map_line "Taxes" "Taxes" "Treasury"; map_line "Fees" "Fees" "Interior" ])
  = 2.
Proof.
  refine (proj1 (proj2 (enrich_keeps_row_count [a_txn "Taxes"; a_txn "Tolls"]))
            dup_file _ _).
  by vm_compute.
Defined.

(** C1 as stated fails: with two mapping rows under one join key, a
    matching transaction comes out twice. *)
Lemma duplicate_keys_fan_out :
  enrich_with_rollups [a_txn "Taxes"]
    [ map_line "Taxes" "Taxes" "Treasury"; map_line "Taxes" "Taxes" "Defense" ]
  = [ Enriched.Row (a_txn "Taxes") (Some "Treasury") (Some "Agency") (Some "Unmapped");
      Enriched.Row (a_txn "Taxes") (Some "Defense") (Some "Agency") (Some "Unmapped") ]
  ∧ length (enrich_with_rollups [a_txn "Taxes"]
              [ map_line "Taxes" "Taxes" "Treasury"; map_line "Taxes" "Taxes" "Defense" ])
    ≠ length [a_txn "Taxes"].
Proof. split; [by vm_compute|]. by vm_compute. Qed.

Lemma enrich_elem_of df mapping o :
  o ∈ enrich_with_rollups df mapping ↔
  ∃ t, t ∈ df ∧ Enriched.txn_of o = t
       ∧ ((∀ m, m ∈ mapping → Mapping.key m ≠ Txn.key t)
            ∧ o = Enriched.Row t (Some "Unmapped") (Some "Unmapped") (Some "Unmapped")
          ∨ ∃ m, m ∈ mapping ∧ Mapping.key m = Txn.key t
                 ∧ o = Enriched.Row t (fillna "Unmapped" (Mapping.cabinet_supercategory m))
                         (fillna "Unmapped" (Mapping.agency_rollup m))
                         (fillna "Unmapped" (Mapping.program_rollup m))).
Proof.
  unfold enrich_with_rollups. rewrite list_elem_of_fmap. split.
  - intros (o' & -> & (t & Ht & Ho' & Hcase)%merge_left_elem_of).
    exists t. split; [done|]. split; [done|].
    destruct Hcase as [[Hno ->]|(m & Hm & Hk & ->)]; [by left|right; by exists m].
  - intros (t & Ht & _ & [[Hno ->]|(m & Hm & Hk & ->)]).
    + exists (Enriched.Row t None None None). split; [done|].
      apply merge_left_elem_of. exists t. split_and!; [done..|]. by left.
    + exists (Enriched.Row t (Mapping.cabinet_supercategory m)
                (Mapping.agency_rollup m) (Mapping.program_rollup m)).
      split; [done|].
      apply merge_left_elem_of. exists t. split_and!; [done..|]. right. by exists m.
Qed.

(** C6: an enriched row whose join key matches no mapping row has
    "Unmapped" in each of the three rollup columns, never a null or a
    blank. *)
Theorem unmatched_rows_are_unmapped df mapping o :
  o ∈ enrich_with_rollups df mapping →
  (∀ m, m ∈ mapping → Mapping.key m ≠ Enriched.key o) →
  (Enriched.cabinet_supercategory o = Some "Unmapped"
   ∧ Enriched.agency_rollup o = Some "Unmapped"
   ∧ Enriched.program_rollup o = Some "Unmapped")
  ∧ ¬ blank (Enriched.cabinet_supercategory o)
  ∧ ¬ blank (Enriched.agency_rollup o)
  ∧ ¬ blank (Enriched.program_rollup o).
Proof.
  intros (t & _ & Ht & Hcase)%enrich_elem_of Hno.
  destruct Hcase as [[_ ->]|(m & Hm & Hk & _)].
  - unfold blank. simpl. split_and!; try done; by intros [|].
  - destruct (Hno m Hm). unfold Enriched.key. by rewrite Ht.
Qed.

Lemma unmatched_rows_are_unmapped_witness :
  Enriched.cabinet_supercategory
    (Enriched.Row (a_txn "Tolls") (Some "Unmapped") (Some "Unmapped") (Some "Unmapped"))
  = Some "Unmapped".
Proof.
  refine (proj1 (proj1 (unmatched_rows_are_unmapped [a_txn "Taxes"; a_txn "Tolls"]
            [ map_line "Taxes" "Taxes" "Treasury"; map_line "Fees" "Fees" "Interior" ]
            _ _ _))).
  - vm_compute. right. left.
  - intros m Hm. vm_compute in Hm.
    apply elem_of_cons in Hm as [->|Hm]; [by vm_compute|].
    apply list_elem_of_singleton in Hm as ->. by vm_compute.
Defined.

Lemma NoDup_key_inj (mapping : list Mapping.row) m m' :
  NoDup (Mapping.key <$> mapping) →
  m ∈ mapping → m' ∈ mapping → Mapping.key m = Mapping.key m' → m = m'.
Proof.
  induction mapping as [|m0 mapping IH]; [by intros _ ?%elem_of_nil|].
  rewrite fmap_cons. intros [Hnin Hnd]%NoDup_cons.
  intros [->|Hm]%elem_of_cons [->|Hm']%elem_of_cons Hk; [done| | |by apply IH].
  - destruct Hnin. rewrite Hk. by apply list_elem_of_fmap_2.
  - destruct Hnin. rewrite <-Hk. by apply list_elem_of_fmap_2.
Qed.

(** C10: no rollup cell of the enriched table is null, whatever the
    mapping; and for a mapping read from a file, a transaction whose key
    matches a mapping row takes that row's rollups, with "Unmapped" where
    the cell of the file is empty. *)
Theorem rollups_never_null df :
  (∀ mapping,
     Forall (λ o, Enriched.cabinet_supercategory o ≠ None
                  ∧ Enriched.agency_rollup o ≠ None
                  ∧ Enriched.program_rollup o ≠ None)
       (enrich_with_rollups df mapping))
  ∧ (∀ file mapping o m,
       load_category_map file = inr mapping →
       o ∈ enrich_with_rollups df mapping →
       m ∈ mapping → Mapping.key m = Enriched.key o →
       (∃ raw, raw ∈ map_rows file ∧ m = Mapping.map_strings str_strip raw
               ∧ (Mapping.cabinet_supercategory raw = None →
                  Enriched.cabinet_supercategory o = Some "Unmapped")
               ∧ (Mapping.agency_rollup raw = None →
                  Enriched.agency_rollup o = Some "Unmapped")
               ∧ (Mapping.program_rollup raw = None →
                  Enriched.program_rollup o = Some "Unmapped"))
       ∧ Enriched.cabinet_supercategory o = fillna "Unmapped" (Mapping.cabinet_supercategory m)
       ∧ Enriched.agency_rollup o = fillna "Unmapped" (Mapping.agency_rollup m)
       ∧ Enriched.program_rollup o = fillna "Unmapped" (Mapping.program_rollup m)).
Proof.
  split.
  - intros mapping. apply Forall_forall.
    intros o (t & _ & _ & [[_ ->]|(m & _ & _ & ->)])%enrich_elem_of; [done|].
    simpl. split_and!.
    + by destruct (Mapping.cabinet_supercategory m).
    + by destruct (Mapping.agency_rollup m).
    + by destruct (Mapping.program_rollup m).
  - intros file mapping o m Hload (t & _ & Ht & Hcase)%enrich_elem_of Hm Hk.
    destruct Hcase as [[Hno _]|(m' & Hm' & Hk' & ->)].
    { destruct (Hno m Hm). unfold Enriched.key in Hk. by rewrite Hk, Ht. }
    pose proof Hload as Heq%load_category_map_inr.
    assert (m' = m) as ->.
    { apply (NoDup_key_inj mapping); [|done..|by rewrite Hk'].
      rewrite Heq. apply drop_duplicates_from_NoDup. }
    split; [|done].
    rewrite Heq in Hm. apply drop_duplicates_from_elem_of in Hm as [Hm _].
    apply list_elem_of_fmap in Hm as (raw & -> & Hraw).
    exists raw. split_and!; [done..| | |]; simpl; by intros ->.
Qed.

Lemma rollups_never_null_witness :
  Enriched.program_rollup
    (Enriched.Row (a_txn "Taxes") (Some "Treasury") (Some "Agency") (Some "Unmapped"))
  = fillna "Unmapped" (Mapping.program_rollup (map_line "Taxes" "Taxes" "Treasury")).
Proof.
  refine (proj2 (proj2 (proj2
            (proj2 (rollups_never_null [a_txn "Taxes"; a_txn "Tolls"]) dup_file
               [ map_line "Taxes" "Taxes" "Treasury"; map_line "Fees" "Fees" "Interior" ]
               _ (map_line "Taxes" "Taxes" "Treasury") _ _ _ _)))).
  - by vm_compute.
  - vm_compute. left.
  - left.
  - by vm_compute.
Defined.

(** ** Schema validation *)

Lemma sorted_elem_of (s : gset string) c : c ∈ sorted s ↔ c ∈ s.
Proof. unfold sorted. by rewrite merge_sort_Permutation, elem_of_elements. Qed.

Lemma sorted_Sorted (s : gset string) : Sorted String.le (sorted s).
Proof. apply (Sorted_merge_sort String.le). Qed.

(** The columns an error names are the required columns that the header
    lacks, each once, in alphabetical order. *)
Lemma missing_columns_named (required : gset string) (columns : list string) c :
  c ∈ sorted (required ∖ list_to_set columns) ↔ c ∈ required ∧ c ∉ columns.
Proof.
  rewrite sorted_elem_of, elem_of_difference, elem_of_list_to_set. done.
Qed.

Lemma sorted_NoDup (s : gset string) : NoDup (sorted s).
Proof. unfold sorted. rewrite merge_sort_Permutation. apply NoDup_elements. Qed.

(** The mapping loader raises exactly when a required column is missing
    from the normalised header; its message names the missing columns and
    the columns found. *)
Lemma load_category_map_schema file :
  (map_required ∖ list_to_set (normalise_columns (map_columns file)) ≠ ∅ →
     load_category_map file
     = inl (ValueError
              ("Mapping file missing columns: "
               +:+ py_repr_list
                     (sorted (map_required
                              ∖ list_to_set (normalise_columns (map_columns file))))
               +:+ ". Found: " +:+ py_repr_list (normalise_columns (map_columns file)))))
  ∧ (map_required ∖ list_to_set (normalise_columns (map_columns file)) = ∅ →
     ∃ mapping, load_category_map file = inr mapping).
Proof.
  unfold load_category_map. split; intros Hm; case_decide; try done. eauto.
Qed.

(** The transaction loader raises exactly when a required column is
    missing; its message names the missing columns only. *)
Lemma load_deposits_withdrawals_schema file :
  (dw_required ∖ list_to_set (dw_columns file) ≠ ∅ →
     load_deposits_withdrawals file
     = inl (ValueError
              ("Deposits/Withdrawals CSV missing columns: "
               +:+ py_repr_list (sorted (dw_required ∖ list_to_set (dw_columns file))))))
  ∧ (dw_required ∖ list_to_set (dw_columns file) = ∅ →
     ∃ out, load_deposits_withdrawals file = inr out).
Proof.
  unfold load_deposits_withdrawals. split; intros Hm; case_decide; try done. eauto.
Qed.

(** C8 on a header that lacks required columns: the mapping loader's error
    lists the columns found, the transaction loader's error does not. *)
Theorem schema_error_of_transactions_omits_found_columns :
  load_category_map {| map_columns := ["transaction_catg"; "amount"]; map_rows := [] |}
  = inl (ValueError
           "Mapping file missing columns: ['agency_rollup', 'cabinet_supercategory', 'program_rollup', 'transaction_catg_desc']. Found: ['transaction_catg', 'amount']")
  ∧ load_deposits_withdrawals {| dw_columns := ["transaction_catg"; "amount"]; dw_rows := [] |}
    = inl (ValueError
             "Deposits/Withdrawals CSV missing columns: ['account_type', 'record_date', 'transaction_catg_desc', 'transaction_today_amt', 'transaction_type']")
  ∧ contains "amount"
      "Deposits/Withdrawals CSV missing columns: ['account_type', 'record_date', 'transaction_catg_desc', 'transaction_today_amt', 'transaction_type']"
    = false.
Proof. split_and!; by vm_compute. Qed.

(** ** The two-level flow graph *)

Lemma node_index_from_not_elem_of (l : list string) n (m : gmap string nat) x :
  x ∉ l →
  foldl (λ m il, <[il.2 := il.1]> m) m (zip (seq n (length l)) l) !! x = m !! x.
Proof.
  revert n m. induction l as [|y l IH]; intros n m Hx; [done|].
  apply not_elem_of_cons in Hx as [Hne Hx]. simpl.
  rewrite IH by done. by apply lookup_insert_ne.
Qed.

Lemma node_index_from_elem_of (l : list string) n (m : gmap string nat) x :
  x ∈ l →
  ∃ j, foldl (λ m il, <[il.2 := il.1]> m) m (zip (seq n (length l)) l) !! x = Some (n + j)
       ∧ l !! j = Some x.
Proof.
  revert n m. induction l as [|y l IH]; intros n m Hx; [by apply elem_of_nil in Hx|].
  simpl. destruct (decide (x ∈ l)) as [Hin|Hnin].
  - destruct (IH (S n) (<[y:=n]> m) Hin) as (j & Hj & Hl).
    exists (S j). split; [|done]. rewrite Hj. f_equal. lia.
  - apply elem_of_cons in Hx as [->|Hx]; [|done].
    exists 0. split; [|done].
    rewrite node_index_from_not_elem_of by done.
    rewrite lookup_insert_eq. f_equal. lia.
Qed.

(** Every label of the node list has an index, and the index points back
    at the label. *)
Lemma node_index_lookup nodes x :
  x ∈ nodes → ∃ i, node_index nodes !! x = Some i ∧ nodes !! i = Some x.
Proof.
  intros Hx. destruct (node_index_from_elem_of nodes 0 ∅ x Hx) as (j & Hj & Hl).
  by exists j.
Qed.

Lemma traverse_lookup_node nodes (l : list string) :
  l ⊆ nodes →
  ∃ ixs, traverse (lookup_node (node_index nodes)) l = inr ixs
         ∧ Forall2 (λ x i, nodes !! i = Some x) l ixs.
Proof.
  induction l as [|x l IH]; intros Hsub; [by exists []|].
  destruct IH as (ixs & Hixs & Hall); [by intros y Hy; apply Hsub; right|].
  destruct (node_index_lookup nodes x) as (i & Hi & Hx); [apply Hsub; left|].
  exists (i :: ixs). split; [|by constructor].
  simpl. unfold lookup_node at 1. rewrite Hi. simpl. by rewrite Hixs.
Qed.

Lemma Forall2_lookup_labels (nodes l : list string) (ixs : list nat) :
  Forall2 (λ x i, nodes !! i = Some x) l ixs →
  (λ i, nodes !! i) <$> ixs = Some <$> l ∧ Forall (λ i, i < length nodes) ixs.
Proof.
  induction 1 as [|x i l ixs Hx _ [IH1 IH2]]; [done|].
  split; [by rewrite !fmap_cons, Hx, IH1|].
  constructor; [by eapply lookup_lt_Some|done].
Qed.

(** C5 as the code has it: the builder always returns a figure; its node
    list is one "Deposits: " node per row of the deposit sums (whatever the
    sum), then the TGA node, then one "Withdrawals: " node per row of the
    withdrawal sums; every source and target index is a position of that
    list, and points at the node the edge is built from. *)
Theorem flows_nodes_and_edge_indices dep_by_cab wdr_by_cab :
  ∃ fig, Flows.build dep_by_cab wdr_by_cab = inr fig
    ∧ label fig = (Flows.dep_node <$> dep_by_cab) ++ [Flows.tga_node]
                  ++ (Flows.wdr_node <$> wdr_by_cab)
    ∧ length (label fig) = length dep_by_cab + 1 + length wdr_by_cab
    ∧ Forall (λ i, i < length (label fig)) (source fig)
    ∧ Forall (λ i, i < length (label fig)) (target fig)
    ∧ (λ i, label fig !! i) <$> source fig
      = Some <$> ((Flows.dep_node <$> dep_by_cab)
                  ++ replicate (length wdr_by_cab) Flows.tga_node)
    ∧ (λ i, label fig !! i) <$> target fig
      = Some <$> (replicate (length dep_by_cab) Flows.tga_node
                  ++ (Flows.wdr_node <$> wdr_by_cab))
    ∧ value fig = (snd <$> dep_by_cab) ++ (snd <$> wdr_by_cab).
Proof.
  unfold Flows.build.
  set (nodes := (Flows.dep_node <$> dep_by_cab) ++ [Flows.tga_node]
                ++ (Flows.wdr_node <$> wdr_by_cab)).
  destruct (traverse_lookup_node nodes (Flows.dep_node <$> dep_by_cab))
    as (srcs & -> & Hsrcs).
  { intros x Hx. by apply elem_of_app; left. }
  destruct (traverse_lookup_node nodes (Flows.wdr_node <$> wdr_by_cab))
    as (tgts & -> & Htgts).
  { intros x Hx. apply elem_of_app; right. by right. }
  destruct (node_index_lookup nodes Flows.tga_node) as (tga & Htga & Hlabel).
  { apply elem_of_app; right. left. }
  unfold lookup_node. rewrite Htga. simpl.
  apply Forall2_lookup_labels in Hsrcs as [Hs1 Hs2].
  apply Forall2_lookup_labels in Htgts as [Ht1 Ht2].
  assert (tga < length nodes) as Hlt by (by eapply lookup_lt_Some).
  eexists. split; [reflexivity|]. simpl. split_and!.
  - done.
  - unfold nodes. rewrite !length_app, !length_fmap. simpl. lia.
  - apply Forall_app. split; [done|]. by apply Forall_replicate.
  - apply Forall_app. split; [|done]. by apply Forall_replicate.
  - rewrite !fmap_app, Hs1, !fmap_replicate. by rewrite Hlabel.
  - rewrite !fmap_app, Ht1, !fmap_replicate. by rewrite Hlabel.
  - done.
Qed.

(** C5 as stated fails: a cabinet whose deposits sum to a negative amount
    has its node all the same. *)
Lemma negative_deposit_sum_has_a_node :
  Flows.build [("Treasury", f64_of_Z (-5))] []
  = inr (Sankey ["Deposits: Treasury"; "Treasury General Account (TGA)"] [0] [1]
           [f64_of_Z (-5)])
  ∧ nodes_as_stated [("Treasury", f64_of_Z (-5))] [] = ["Treasury General Account (TGA)"].
Proof. split; by vm_compute. Qed.

(** ** Empty selections *)

(** With no row left in the selection, the Flows page still plots: a
    figure of the TGA node alone. *)
Lemma flows_page_of_empty_selection fsum df start_date end_date show_unmapped :
  select_range df start_date end_date show_unmapped = [] →
  Flows.page fsum df start_date end_date show_unmapped
  = Plot (Sankey [Flows.tga_node] [] [] []).
Proof. unfold Flows.page. intros ->. by vm_compute. Qed.

(** With no row left for the cabinet and the transaction type, the
    Drilldown page stops with a message. *)
Lemma drilldown_page_of_empty_selection fsum df start_date end_date show_unmapped
    txn_type cabinet per_agency_top :
  filter (λ r, eq_label (Enriched.cabinet_supercategory r) cabinet = true
               ∧ of_type txn_type r)
    (select_range df start_date end_date show_unmapped) = [] →
  ∃ msg, Drilldown.page fsum df start_date end_date show_unmapped txn_type cabinet
           per_agency_top = Stop msg.
Proof.
  unfold Drilldown.page. intros ->. destruct (Drilldown.cab_options _); eauto.
Qed.

(** C9 on a table with rows on 2023-01-01 and 2024-01-08 only, and the
    date range 2023-05-23 .. 2023-06-02, which holds no row.  The table
    spans more than 365 days, so the default range of the date control
    lies within its bounds and the pages run; the range picked lies within
    the bounds too.  The Drilldown page stops, the Flows page plots an
    empty diagram. *)
Theorem flows_page_plots_empty_selection :
  date_input_bounds [enriched_on 19358 "Treasury"; enriched_on 19730 "Treasury"]
  = Some (19358, 19730)%Z
  ∧ date_input_default [enriched_on 19358 "Treasury"; enriched_on 19730 "Treasury"]
    = Some (19365, 19730)%Z
  ∧ within_bounds (19358, 19730)%Z (19365, 19730)%Z = true
  ∧ within_bounds (19358, 19730)%Z (19500, 19510)%Z = true
  ∧ select_range [enriched_on 19358 "Treasury"; enriched_on 19730 "Treasury"] 19500 19510 true
    = []
  ∧ Drilldown.page naive_sum [enriched_on 19358 "Treasury"; enriched_on 19730 "Treasury"]
      19500 19510 true "Deposits" "Treasury" 20
    = Stop "No data available for the selected date range."
  ∧ Flows.page naive_sum [enriched_on 19358 "Treasury"; enriched_on 19730 "Treasury"]
      19500 19510 true
    = Plot (Sankey ["Treasury General Account (TGA)"] [] [] []).
Proof. split_and!; by vm_compute. Qed.

(** ** The pipeline on the scenario *)

(** From the two files to the figure of the Flows page, over the whole
    date range. *)
Example flows_of_scenario :
  (df ← (match get_enriched scenario_dw scenario_map with
         | inr df => Some df
         | inl _ => None
         end);
   Some (Flows.page naive_sum df 19727 19728 true))
  = Some (Plot (Sankey ["Deposits: Treasury"; "Treasury General Account (TGA)";
                        "Withdrawals: Defense"]
                  [0; 1] [1; 2] [f64_of_Z 2500000; f64_of_Z 1500000])).
Proof. by vm_compute. Qed.

(** ** Stable sorting *)

Section stable_sort_facts.
Context {A : Type} (le : A → A → bool).

Lemma stable_sort_cons x l :
  stable_sort le (x :: l) = insert_sorted le x (stable_sort le l).
Proof. reflexivity. Qed.

Lemma insert_sorted_Permutation x l : insert_sorted le x l ≡ₚ x :: l.
Proof.
  induction l as [|y l IH]; simpl; [done|].
  destruct (le x y); [done|]. rewrite IH. apply Permutation_swap.
Qed.

Lemma stable_sort_Permutation l : stable_sort le l ≡ₚ l.
Proof.
  induction l as [|x l IH]; [done|].
  by rewrite stable_sort_cons, insert_sorted_Permutation, IH.
Qed.

Lemma insert_sorted_head x l :
  Forall (λ y, le x y = true) l → insert_sorted le x l = x :: l.
Proof. destruct 1 as [|y l Hy _]; simpl; [done|]. by rewrite Hy. Qed.

Lemma insert_sorted_ext (le' : A → A → bool) x l :
  (∀ y, y ∈ l → le x y = le' x y) →
  insert_sorted le x l = insert_sorted le' x l.
Proof.
  induction l as [|y l IH]; intros Hext; simpl; [done|].
  rewrite <-Hext by left. destruct (le x y); [done|].
  f_equal. apply IH. intros z Hz. apply Hext. by right.
Qed.

(** The sort only looks at the order between rows of the list. *)
Lemma stable_sort_ext (le' : A → A → bool) l :
  (∀ x y, x ∈ l → y ∈ l → le x y = le' x y) →
  stable_sort le l = stable_sort le' l.
Proof.
  induction l as [|x l IH]; intros Hext; [done|].
  rewrite stable_sort_cons.
  change (stable_sort le' (x :: l)) with (insert_sorted le' x (stable_sort le' l)).
  rewrite <-IH.
  - apply insert_sorted_ext. intros y Hy. apply Hext; [left|right].
    by rewrite <-(stable_sort_Permutation l).
  - intros y z Hy Hz. apply Hext; by right.
Qed.

Hypothesis le_total : ∀ x y, le x y = true ∨ le y x = true.
Hypothesis le_trans : ∀ x y z, le x y = true → le y z = true → le x z = true.

Lemma insert_sorted_StronglySorted x l :
  StronglySorted (λ a b, le a b = true) l →
  StronglySorted (λ a b, le a b = true) (insert_sorted le x l).
Proof.
  induction l as [|y l IH]; intros Hl; simpl.
  { repeat constructor. }
  apply StronglySorted_cons in Hl as [Hy Hl].
  destruct (le x y) eqn:Hxy.
  - apply StronglySorted_cons. split; [|by apply StronglySorted_cons].
    constructor; [done|]. eapply Forall_impl; [exact Hy|].
    intros z Hz. by eapply le_trans.
  - apply StronglySorted_cons. split; [|by apply IH].
    rewrite insert_sorted_Permutation. constructor; [|done].
    destruct (le_total x y) as [Hc|Hc]; [congruence|done].
Qed.

Lemma stable_sort_StronglySorted l :
  StronglySorted (λ a b, le a b = true) (stable_sort le l).
Proof.
  induction l as [|x l IH]; [constructor|].
  rewrite stable_sort_cons. by apply insert_sorted_StronglySorted.
Qed.


Lemma filter_insert_sorted (P : A → Prop) `{!∀ x, Decision (P x)} x l :
  StronglySorted (λ a b, le a b = true) l →
  filter P (insert_sorted le x l)
  = if decide (P x) then insert_sorted le x (filter P l) else filter P l.
Proof.
  induction l as [|y l IH]; intros Hl; simpl.
  { rewrite filter_cons, filter_nil. by case_decide. }
  apply StronglySorted_cons in Hl as [Hy Hl].
  destruct (le x y) eqn:Hxy.
  - rewrite (filter_cons P x). case_decide as HPx; [|done].
    symmetry. apply insert_sorted_head.
    apply Forall_forall. intros z [_ Hz]%list_elem_of_filter.
    apply elem_of_cons in Hz as [->|Hz]; [done|].
    eapply le_trans; [exact Hxy|]. by eapply Forall_forall in Hy.
  - rewrite (filter_cons P y), IH by done.
    rewrite (filter_cons P y). destruct (decide (P y)) as [HPy|HPy].
    + case_decide; [|done]. simpl. by rewrite Hxy.
    + done.
Qed.

(** Filtering commutes with the sort: the rows that satisfy [P] come out in
    the order the sort gives them on their own. *)
Lemma filter_stable_sort (P : A → Prop) `{!∀ x, Decision (P x)} l :
  filter P (stable_sort le l) = stable_sort le (filter P l).
Proof.
  induction l as [|x l IH]; [done|].
  rewrite stable_sort_cons, filter_insert_sorted by apply stable_sort_StronglySorted.
  rewrite (filter_cons P x), IH. by case_decide.
Qed.

End stable_sort_facts.

(** ** The order on amounts *)

Lemma SFcompare_antisym x y c :
  SFcompare x y = Some c → SFcompare y x = Some (CompOpp c).
Proof.
  destruct x as [[]|[]| |[] mx ex], y as [[]|[]| |[] my ey]; simpl;
    try (intros [= <-]; reflexivity); try done.
  all: intros [= <-]; f_equal; rewrite (Z.compare_antisym ex ey);
    destruct (ex ?= ey)%Z; simpl; try done;
    rewrite (Pos.compare_cont_antisym); simpl; by try rewrite CompOpp_involutive.
Qed.

Lemma SFcompare_notnan x y :
  f64_isnan x = false → f64_isnan y = false → is_Some (SFcompare x y).
Proof. destruct x as [| | |], y as [| | |]; simpl; try done; by eexists. Qed.

Lemma f64_leb_trans x y z :
  f64_leb x y = true → f64_leb y z = true → f64_leb x z = true.
Proof.
  unfold f64_leb, SFleb.
  destruct x as [[]|[]| |[] mx ex], y as [[]|[]| |[] my ey], z as [[]|[]| |[] mz ez];
    simpl; try done.
  all: change (Pos.compare_cont Eq) with Pos.compare.
  all: destruct (Z.compare_spec ex ey), (Z.compare_spec ey ez), (Z.compare_spec ex ez);
    try lia; try done; subst.
  all: destruct (Pos.compare_spec mx my), (Pos.compare_spec my mz), (Pos.compare_spec mx mz);
    try lia; try done.
Qed.

Lemma f64_ltb_leb x y :
  f64_isnan x = false → f64_isnan y = false → f64_ltb x y = negb (f64_leb y x).
Proof.
  intros Hx Hy. unfold f64_ltb, f64_leb, SFltb, SFleb.
  destruct (SFcompare_notnan x y Hx Hy) as [c Hc].
  rewrite Hc, (SFcompare_antisym _ _ _ Hc). by destruct c.
Qed.

Lemma f64_eqb_leb x y :
  f64_isnan x = false → f64_isnan y = false →
  f64_eqb x y = f64_leb x y && f64_leb y x.
Proof.
  intros Hx Hy. unfold f64_eqb, f64_leb, SFeqb, SFleb.
  destruct (SFcompare_notnan x y Hx Hy) as [c Hc].
  rewrite Hc, (SFcompare_antisym _ _ _ Hc). by destruct c.
Qed.

Lemma f64_leb_total x y :
  f64_isnan x = false → f64_isnan y = false → f64_leb x y = true ∨ f64_leb y x = true.
Proof.
  intros Hx Hy. unfold f64_leb, SFleb.
  destruct (SFcompare_notnan x y Hx Hy) as [c Hc].
  rewrite Hc, (SFcompare_antisym _ _ _ Hc). destruct c; auto.
Qed.

Lemma f64_leb_notnan x y : f64_leb x y = true → f64_isnan x = false ∧ f64_isnan y = false.
Proof. by destruct x as [| | |], y as [| | |]. Qed.

Lemma desc_le_total x y : desc_le x y = true ∨ desc_le y x = true.
Proof.
  unfold desc_le.
  destruct (f64_isnan x) eqn:Hx, (f64_isnan y) eqn:Hy; simpl; auto.
  destruct (f64_leb_total x y Hx Hy); auto.
Qed.

Lemma desc_le_trans x y z :
  desc_le x y = true → desc_le y z = true → desc_le x z = true.
Proof.
  unfold desc_le.
  destruct (f64_isnan z) eqn:Hz; [done|].
  destruct (f64_isnan y) eqn:Hy; [done|].
  destruct (f64_isnan x) eqn:Hx; [done|]. simpl.
  intros ??. by eapply f64_leb_trans.
Qed.

Lemma desc_le_notnan x y :
  f64_isnan x = false → f64_isnan y = false → desc_le x y = f64_leb y x.
Proof. unfold desc_le. by intros -> ->. Qed.

(** ** Rank-and-bucket *)

Lemma prog_le_total r s : Drilldown.prog_le r s = true ∨ Drilldown.prog_le s r = true.
Proof.
  unfold Drilldown.prog_le.
  destruct (decide (Drilldown.agency_rollup r = Drilldown.agency_rollup s)) as [Heq|Hne].
  - rewrite decide_True by done. apply desc_le_total.
  - rewrite decide_False by done.
    destruct (total String.le (Drilldown.agency_rollup r) (Drilldown.agency_rollup s));
      [left|right]; by apply bool_decide_eq_true.
Qed.

Lemma prog_le_trans r s t :
  Drilldown.prog_le r s = true → Drilldown.prog_le s t = true → Drilldown.prog_le r t = true.
Proof.
  unfold Drilldown.prog_le.
  destruct (decide (Drilldown.agency_rollup r = Drilldown.agency_rollup s)) as [Hrs|Hrs],
    (decide (Drilldown.agency_rollup s = Drilldown.agency_rollup t)) as [Hst|Hst].
  - rewrite decide_True by congruence. apply desc_le_trans.
  - rewrite decide_False by congruence. rewrite Hrs. by intros _.
  - rewrite decide_False by congruence. rewrite <-Hst. by intros ? _.
  - intros Hle1%bool_decide_eq_true Hle2%bool_decide_eq_true.
    case_decide as Hrt.
    + destruct Hrs. apply (anti_symm String.le); [done|]. by rewrite Hrt.
    + apply bool_decide_eq_true. by etrans.
Qed.

(** Within one agency, the sorted table lists the programs by rank. *)
Lemma children_of_sorted a prog :
  children a (stable_sort Drilldown.prog_le prog) = ranked a prog.
Proof.
  unfold children, ranked.
  rewrite filter_stable_sort by (apply prog_le_total || apply prog_le_trans).
  apply stable_sort_ext. intros r s [Hr _]%list_elem_of_filter [Hs _]%list_elem_of_filter.
  unfold Drilldown.prog_le, by_sum_desc, Drilldown.same_agency in *.
  rewrite decide_True; [done|congruence].
Qed.

Lemma length_filter_split {A} (P Q : A → Prop) `{!∀ x, Decision (P x)} `{!∀ x, Decision (Q x)}
    (l : list A) :
  Forall (λ x, P x ↔ ¬ Q x) l →
  length (filter P l) + length (filter Q l) = length l.
Proof.
  induction 1 as [|x l Hx _ IH]; [done|].
  rewrite !filter_cons. destruct (decide (P x)) as [HP|HP], (decide (Q x)) as [HQ|HQ];
    simpl; try lia.
  - by apply Hx in HP.
  - destruct HP. by apply Hx.
Qed.

(** In a group sorted from the largest value down (NaN last), the rank of
    a number is its position (counted from 1). *)
Lemma rank_first_desc_sorted (g1 g2 : list float64) v :
  f64_isnan v = false →
  Forall (λ w, f64_leb v w = true) g1 →
  Forall (λ w, f64_ltb v w = false) g2 →
  Drilldown.rank_first_desc (g1 ++ v :: g2) (length g1) v = Some (1 + length g1).
Proof.
  intros Hv Hg1 Hg2. unfold Drilldown.rank_first_desc. rewrite Hv. f_equal.
  rewrite take_app_length, filter_app, length_app.
  assert (filter (λ w, f64_ltb v w = true) (v :: g2) = []) as ->.
  { assert (Forall (λ w, ¬ (f64_ltb v w = true)) (v :: g2)) as Hall.
    { constructor.
      - rewrite f64_ltb_leb by done.
        destruct (f64_leb_total v v Hv Hv) as [->| ->]; done.
      - eapply Forall_impl; [exact Hg2|]. by intros w ->. }
    clear -Hall. induction Hall as [|w l Hw _ IH]; [done|].
    by rewrite filter_cons_False. }
  assert (length (filter (λ w, f64_ltb v w = true) g1)
          + length (filter (λ w, f64_eqb w v = true) g1) = length g1) as Hsplit.
  { apply length_filter_split.
    eapply Forall_impl; [exact Hg1|]. intros w Hw. simpl.
    destruct (f64_leb_notnan _ _ Hw) as [_ Hnw].
    rewrite f64_ltb_leb, f64_eqb_leb, Hw, andb_true_r by done.
    destruct (f64_leb w v); simpl; split; try done; intros Hc; by destruct Hc. }
  simpl. lia.
Qed.

Lemma ranked_rows_cons prog i r rest :
  ranked_rows prog i (r :: rest) = (r, rank_at prog i r) :: ranked_rows prog (S i) rest.
Proof.
  unfold ranked_rows. rewrite imap_cons, Nat.add_0_r. f_equal.
  apply imap_ext. intros j s _. simpl. do 2 f_equal. lia.
Qed.

Lemma zip_imap {A B} (f : nat → A → B) (l : list A) :
  zip l (imap f l) = imap (λ i x, (x, f i x)) l.
Proof.
  revert f. induction l as [|x l IH]; intros f; [done|].
  rewrite !imap_cons. simpl. f_equal. apply IH.
Qed.

Lemma zip_rank_within_agency prog :
  zip prog (Drilldown.rank_within_agency prog) = ranked_rows prog 0 prog.
Proof. unfold Drilldown.rank_within_agency. apply zip_imap. Qed.

Lemma f64_ltb_nan_r x y : f64_isnan y = true → f64_ltb x y = false.
Proof. by destruct x as [| | |], y as [| | |]. Qed.

Lemma rank_at_nan prog i r : ¬ numeric r → rank_at prog i r = None.
Proof.
  unfold numeric, rank_at, Drilldown.rank_first_desc.
  by destruct (f64_isnan (Drilldown.amt r)).
Qed.

Lemma rank_at_sorted pre r suf :
  StronglySorted (λ x y, Drilldown.prog_le x y = true) (pre ++ r :: suf) →
  numeric r →
  rank_at (pre ++ r :: suf) (length pre) r
  = Some (1 + length (children (Drilldown.agency_rollup r) pre)).
Proof.
  intros Hsorted Hr. unfold rank_at, children.
  apply StronglySorted_app in Hsorted as (Hpre & _ & [Hsuf _]%StronglySorted_cons).
  rewrite take_app_length, filter_app, filter_cons_True, fmap_app, fmap_cons by done.
  rewrite <-(length_fmap Drilldown.amt (filter _ pre)).
  apply rank_first_desc_sorted; [done| |].
  - apply Forall_fmap, Forall_forall. intros p [Hag Hp]%list_elem_of_filter. simpl.
    specialize (Hpre p r Hp ltac:(left)).
    unfold Drilldown.prog_le, desc_le in Hpre.
    rewrite decide_True, Hr in Hpre by done.
    by apply andb_true_iff in Hpre as [_ ?].
  - apply Forall_fmap, Forall_forall. intros s [Hag Hs]%list_elem_of_filter. simpl.
    eapply Forall_forall in Hsuf; [|done].
    unfold Drilldown.prog_le, desc_le in Hsuf.
    rewrite decide_True, Hr in Hsuf by done.
    destruct (f64_isnan (Drilldown.amt s)) eqn:Hns; [by apply f64_ltb_nan_r|].
    simpl in Hsuf. rewrite f64_ltb_leb by done. by rewrite Hsuf.
Qed.

(** After a row of an agency whose sum is NaN, the sorted table holds no
    numeric row of the agency. *)
Lemma no_number_after_nan a r suf :
  StronglySorted (λ x y, Drilldown.prog_le x y = true) (r :: suf) →
  Drilldown.same_agency a r → ¬ numeric r →
  filter numeric (children a suf) = [].
Proof.
  intros [Hsuf _]%StronglySorted_cons Ha Hr.
  destruct (filter numeric (children a suf)) as [|s rest] eqn:Hf; [done|].
  assert (s ∈ filter numeric (children a suf)) as [Hs [Has Hin]%list_elem_of_filter]%list_elem_of_filter
    by (rewrite Hf; left).
  eapply Forall_forall in Hsuf; [|done].
  unfold Drilldown.prog_le, desc_le, Drilldown.same_agency, numeric in *.
  rewrite decide_True, Hs in Hsuf by congruence.
  by destruct (f64_isnan (Drilldown.amt r)).
Qed.

Lemma children_cons a r (l : list Drilldown.prog_row) :
  children a (r :: l)
  = if decide (Drilldown.same_agency a r) then r :: children a l else children a l.
Proof. apply filter_cons. Qed.

Lemma children_app a (l1 l2 : list Drilldown.prog_row) :
  children a (l1 ++ l2) = children a l1 ++ children a l2.
Proof. apply filter_app. Qed.

(** The rows a rank mask [keep] selects, one row at a time. *)
Lemma masked_cons (keep : option nat → bool) (r : Drilldown.prog_row) k rest :
  fst <$> filter (λ p, keep p.2 = true) ((r, k) :: rest)
  = (if keep k then [r] else []) ++ (fst <$> filter (λ p, keep p.2 = true) rest).
Proof.
  rewrite filter_cons. case_decide as Hk; simpl in Hk.
  - by rewrite Hk, fmap_cons.
  - by destruct (keep k).
Qed.

(** In the sorted table, the rows of rank at most [n] of an agency are its
    first [n] numeric rows, and the rows of rank above [n] are the other
    numeric rows. *)
Lemma split_by_rank n a prog :
  StronglySorted (λ x y, Drilldown.prog_le x y = true) prog →
  ∀ suf pre, prog = pre ++ suf →
    children a (fst <$> filter (λ p, Drilldown.rank_le n p.2 = true)
                          (ranked_rows prog (length pre) suf))
    = take (Z.to_nat n - length (children a pre)) (filter numeric (children a suf))
    ∧ children a (fst <$> filter (λ p, Drilldown.rank_gt n p.2 = true)
                            (ranked_rows prog (length pre) suf))
      = drop (Z.to_nat n - length (children a pre)) (filter numeric (children a suf)).
Proof.
  intros Hsorted. induction suf as [|r suf IH]; intros pre Hprog.
  { split; symmetry; [apply take_nil|apply drop_nil]. }
  rewrite ranked_rows_cons, !masked_cons, !children_app.
  destruct (IH (pre ++ [r])) as [IHtop IHother]; [by rewrite <-app_assoc|].
  rewrite length_app, Nat.add_1_r in IHtop, IHother.
  rewrite IHtop, IHother. clear IHtop IHother IH.
  rewrite children_app, length_app, !children_cons.
  destruct (decide (Drilldown.same_agency a r)) as [Ha|Ha].
  2:{ change (children a []) with (@nil Drilldown.prog_row).
      rewrite Nat.add_0_r.
      assert (∀ keep : bool, children a (if keep then [r] else []) = []) as Hnone.
      { intros []; [|done]. by rewrite children_cons, decide_False. }
      by rewrite !Hnone. }
  change (children a []) with (@nil Drilldown.prog_row).
  destruct (decide (numeric r)) as [Hr|Hr].
  - pose proof (rank_at_sorted pre r suf) as Hrank. rewrite <-Hprog in Hrank.
    rewrite Hrank by done. clear Hrank.
    unfold Drilldown.same_agency in Ha. rewrite Ha.
    rewrite filter_cons_True by done.
    set (k := length (children a pre)). simpl length.
    unfold Drilldown.rank_le, Drilldown.rank_gt.
    destruct (Z.leb_spec (Z.of_nat (1 + k)) n) as [Hle|Hgt];
      destruct (Z.ltb_spec n (Z.of_nat (1 + k))) as [Hlt|Hge]; try lia.
    + rewrite children_cons, decide_True by done.
      change (children a []) with (@nil Drilldown.prog_row).
      replace (Z.to_nat n - k) with (S (Z.to_nat n - (k + 1))) by lia. done.
    + rewrite children_cons, decide_True by done.
      change (children a []) with (@nil Drilldown.prog_row).
      replace (Z.to_nat n - k) with 0 by lia.
      replace (Z.to_nat n - (k + 1)) with 0 by lia. done.
  - rewrite rank_at_nan by done. simpl.
    rewrite filter_cons_False by done.
    rewrite (no_number_after_nan a r suf); [by rewrite !take_nil, !drop_nil| |done..].
    rewrite Hprog in Hsorted. by apply StronglySorted_app in Hsorted as (_ & _ & ?).
Qed.

Lemma filter_fmap {A B} (f : A → B) (P : B → Prop) `{!∀ y, Decision (P y)} (l : list A) :
  filter P (f <$> l) = f <$> filter (λ x, P (f x)) l.
Proof.
  induction l as [|x l IH]; [done|].
  rewrite fmap_cons, !filter_cons, IH. by case_decide.
Qed.

Lemma filter_eq_NoDup {A} `{!EqDecision A} (a : A) (l : list A) :
  NoDup l → filter (λ k, k = a) l = if decide (a ∈ l) then [a] else [].
Proof.
  induction 1 as [|k l Hk _ IH]; [done|].
  rewrite filter_cons, IH. destruct (decide (k = a)) as [->|Hne].
  - destruct (decide (a ∈ l)) as [?|_]; [done|].
    by destruct (decide (a ∈ a :: l)) as [_|[]]; [|left].
  - destruct (decide (a ∈ l)) as [Hin|Hnin];
      destruct (decide (a ∈ k :: l)) as [Hin'|Hnin']; try done.
    + destruct Hnin'. by right.
    + by apply elem_of_cons in Hin' as [->|?].
Qed.

Lemma StronglySorted_impl_elem_of {A} (R R' : A → A → Prop) (l : list A) :
  (∀ x y, x ∈ l → y ∈ l → R x y → R' x y) →
  StronglySorted R l → StronglySorted R' l.
Proof.
  intros Himpl. induction 1 as [|x l Hl IH Hx]; [constructor|].
  constructor.
  - apply IH. intros y z Hy Hz. apply Himpl; by right.
  - apply Forall_forall. intros y Hy. apply Himpl; [left|by right|].
    by eapply Forall_forall in Hx.
Qed.

(** The "Other" rows of one agency: one row when the agency has rows of
    rank above the cut, holding their sum; none otherwise. *)
Lemma other_rows_of_agency fsum a (other : list Drilldown.prog_row) :
  children a
    ((λ p, Drilldown.ProgRow p.1 Drilldown.other_label p.2)
       <$> groupby_sum fsum String.le (λ r, Some (Drilldown.agency_rollup r))
             Drilldown.amt other)
  = match children a other with
    | [] => []
    | rest => [Drilldown.ProgRow a Drilldown.other_label (fsum (Drilldown.amt <$> rest))]
    end.
Proof.
  unfold groupby_sum, children. rewrite <-list_fmap_compose, filter_fmap.
  rewrite (list_filter_iff _ (λ k, k = a)) by done.
  rewrite filter_eq_NoDup.
  2:{ rewrite merge_sort_Permutation. apply NoDup_elements. }
  assert (filter (λ r, Some (Drilldown.agency_rollup r) = Some a) other
          = filter (Drilldown.same_agency a) other) as Hgroup.
  { apply list_filter_iff. intros r. unfold Drilldown.same_agency. split; congruence. }
  case_decide as Hin.
  - rewrite merge_sort_Permutation, elem_of_elements, elem_of_list_to_set in Hin.
    apply list_elem_of_omap in Hin as (r & Hr & [= Ha]).
    simpl. rewrite Hgroup.
    destruct (filter (Drilldown.same_agency a) other) as [|r' rest] eqn:Hf; [|done].
    by destruct (filter_nil_not_elem_of _ _ r Hf Ha).
  - destruct (filter (Drilldown.same_agency a) other) as [|r' rest] eqn:Hf; [done|].
    destruct Hin.
    assert (r' ∈ filter (Drilldown.same_agency a) other) as [Ha Hr']%list_elem_of_filter
      by (rewrite Hf; left).
    rewrite merge_sort_Permutation, elem_of_elements, elem_of_list_to_set.
    apply list_elem_of_omap. exists r'. split; [done|]. by rewrite Ha.
Qed.

Lemma split_by_rank_all n a prog :
  StronglySorted (λ x y, Drilldown.prog_le x y = true) prog →
  children a (fst <$> filter (λ p, Drilldown.rank_le n p.2 = true) (ranked_rows prog 0 prog))
  = take (Z.to_nat n) (filter numeric (children a prog))
  ∧ children a (fst <$> filter (λ p, Drilldown.rank_gt n p.2 = true) (ranked_rows prog 0 prog))
    = drop (Z.to_nat n) (filter numeric (children a prog)).
Proof.
  intros Hsorted.
  pose proof (split_by_rank n a prog Hsorted prog [] eq_refl) as Hsplit.
  change (length (children a [])) with 0 in Hsplit.
  rewrite Nat.sub_0_r in Hsplit. exact Hsplit.
Qed.

Lemma by_sum_desc_total r s : by_sum_desc r s = true ∨ by_sum_desc s r = true.
Proof. apply desc_le_total. Qed.

Lemma by_sum_desc_trans r s t :
  by_sum_desc r s = true → by_sum_desc s t = true → by_sum_desc r t = true.
Proof. apply desc_le_trans. Qed.

Lemma numeric_ranked a prog :
  filter numeric (ranked a prog) = ranked a (filter numeric prog).
Proof.
  unfold ranked, children.
  rewrite filter_stable_sort by (apply by_sum_desc_total || apply by_sum_desc_trans).
  f_equal. rewrite !list_filter_filter. apply list_filter_iff. intros r. tauto.
Qed.

(** What bucketing leaves of one agency, for any table: the rows whose
    sum is NaN have no rank and are dropped; the numeric rows are cut
    after the [n] first by rank, the rest summed into one "Other" row. *)
Lemma children_of_bucket fsum n prog a :
  children a (Drilldown.bucket fsum n prog)
  = take (Z.to_nat n) (ranked a (filter numeric prog))
    ++ match drop (Z.to_nat n) (ranked a (filter numeric prog)) with
       | [] => []
       | rest => [Drilldown.ProgRow a Drilldown.other_label (fsum (Drilldown.amt <$> rest))]
       end.
Proof.
  unfold Drilldown.bucket.
  rewrite zip_rank_within_agency.
  destruct (split_by_rank_all n a (stable_sort Drilldown.prog_le prog)) as [Htop Hother].
  { apply stable_sort_StronglySorted; [apply prog_le_total|apply prog_le_trans]. }
  rewrite children_of_sorted, numeric_ranked in Htop, Hother.
  destruct (fst <$> filter (λ p, Drilldown.rank_gt n p.2 = true) _) as [|o other] eqn:Ho.
  - etrans; [exact Htop|]. rewrite <-Hother. symmetry. apply app_nil_r.
  - rewrite children_app, other_rows_of_agency, Hother. f_equal. exact Htop.
Qed.





(** * Further properties *)

(** ** File discovery *)

Lemma is_prefix_spec p s : is_prefix p s = true ↔ ∃ b, s = p +:+ b.
Proof.
  revert s. induction p as [|a p IH]; intros s; simpl.
  { split; [by exists s|done]. }
  destruct s as [|c s]; simpl.
  { split; [done|]. by intros [b ?]. }
  rewrite andb_true_iff, bool_decide_eq_true, IH. split.
  - intros [-> [b ->]]. by exists b.
  - intros [b [= -> ->]]. split; [done|]. by exists b.
Qed.

(** [contains p s] is the substring test [p in s]. *)
Lemma contains_spec p s : contains p s = true ↔ ∃ a b, s = a +:+ p +:+ b.
Proof.
  induction s as [|c s IH].
  - simpl. rewrite orb_false_r, is_prefix_spec. split.
    + intros [b ->]. by exists EmptyString, b.
    + intros (a & b & Heq). destruct a; [by exists b|done].
  - cbn [contains]. rewrite orb_true_iff, is_prefix_spec, IH. split.
    + intros [[b ->]|(a & b & ->)]; [by exists EmptyString, b|].
      by exists (String c a), b.
    + intros ([|c' a] & b & Heq); [left; by exists b|right].
      injection Heq as -> ->. by exists a, b.
Qed.

Lemma first_file_Some csvs c f :
  first_file csvs c = Some f ↔
  ∃ pre post, csvs = pre ++ f :: post ∧ name_matches c f = true
              ∧ Forall (λ g, name_matches c g = false) pre.
Proof.
  unfold first_file. induction csvs as [|g csvs IH].
  { split; [done|]. by intros ([|??] & ? & ? & _). }
  rewrite filter_cons. destruct (decide (name_matches c g = true)) as [Hg|Hg].
  - simpl. split.
    + intros [= ->]. by exists [], csvs.
    + intros ([|g' pre] & post & Heq & Hf & Hpre); [by injection Heq as ->|].
      injection Heq as -> ->. apply Forall_cons in Hpre as [Hg' _]. congruence.
  - rewrite IH. split.
    + intros (pre & post & -> & Hf & Hpre). exists (g :: pre), post.
      split_and!; [done..|]. constructor; [|done]. by destruct (name_matches c g).
    + intros ([|g' pre] & post & Heq & Hf & Hpre); [injection Heq as -> _; done|].
      injection Heq as -> ->. apply Forall_cons in Hpre as [_ Hpre]. by exists pre, post.
Qed.

Lemma first_file_None csvs c :
  first_file csvs c = None ↔ Forall (λ g, name_matches c g = false) csvs.
Proof.
  unfold first_file. induction csvs as [|g csvs IH]; [done|].
  rewrite filter_cons, Forall_cons. case_decide as Hg; simpl.
  - split; [done|]. intros [? _]. congruence.
  - rewrite IH. split; [|by intros [_ ?]].
    intros ?. split; [|done]. by destruct (name_matches c g).
Qed.

Lemma first_match_Some candidates csvs f :
  first_match candidates csvs = Some f ↔
  ∃ before c after pre post,
    candidates = before ++ c :: after ∧ csvs = pre ++ f :: post
    ∧ name_matches c f = true
    ∧ Forall (λ g, name_matches c g = false) pre
    ∧ Forall (λ c', Forall (λ g, name_matches c' g = false) csvs) before.
Proof.
  induction candidates as [|c candidates IH]; simpl.
  { split; [done|]. by intros ([|??] & ? & ? & ? & ? & ? & _). }
  destruct (first_file csvs c) as [f'|] eqn:Hc.
  - split.
    + intros [= ->]. apply first_file_Some in Hc as (pre & post & ? & ? & ?).
      by exists [], c, candidates, pre, post.
    + intros ([|c' before] & c2 & after & pre & post & Heq & Hcsvs & Hf & Hpre & Hbefore).
      * injection Heq as -> ->.
        assert (first_file csvs c2 = Some f) as Hc'
          by (apply first_file_Some; by exists pre, post).
        congruence.
      * injection Heq as -> ->. apply Forall_cons in Hbefore as [Hno _].
        apply first_file_None in Hno. congruence.
  - rewrite IH. apply first_file_None in Hc. split.
    + intros (before & c2 & after & pre & post & -> & ? & ? & ? & ?).
      exists (c :: before), c2, after, pre, post. split_and!; [done..|]. by constructor.
    + intros ([|c' before] & c2 & after & pre & post & Heq & Hcsvs & Hf & Hpre & Hbefore).
      * injection Heq as -> ->. rewrite Hcsvs in Hc.
        apply Forall_app in Hc as [_ [Hc _]%Forall_cons]. congruence.
      * injection Heq as -> ->. apply Forall_cons in Hbefore as [_ Hbefore].
        by exists before, c2, after, pre, post.
Qed.

Lemma first_match_None candidates csvs :
  first_match candidates csvs = None ↔
  Forall (λ c, Forall (λ g, name_matches c g = false) csvs) candidates.
Proof.
  induction candidates as [|c candidates IH]; simpl; [done|].
  rewrite Forall_cons, <-first_file_None, <-IH.
  destruct (first_file csvs c) as [f|].
  - split; [done|]. by intros [? _].
  - split; [by intros ?|by intros [_ ?]].
Qed.

(** X1: the locator returns the file [f] exactly when some candidate holds
    in the name of [f] (ignoring ASCII case), no earlier file holds that
    candidate, and no earlier candidate holds in any file name: candidates
    are tried in order over the whole folder, not file by file. *)
Theorem find_first_csv_priority data_raw csvs candidates f :
  _find_first_csv data_raw (Some csvs) candidates = inr f ↔
  ∃ before c after pre post,
    candidates = before ++ c :: after ∧ csvs = pre ++ f :: post
    ∧ (∃ a b, lower f = a +:+ lower c +:+ b)
    ∧ Forall (λ g, name_matches c g = false) pre
    ∧ Forall (λ c', Forall (λ g, name_matches c' g = false) csvs) before.
Proof.
  assert (_find_first_csv data_raw (Some csvs) candidates = inr f
          ↔ first_match candidates csvs = Some f) as ->.
  { unfold _find_first_csv. destruct csvs as [|g csvs].
    - split; [done|]. intros Hm. apply first_match_Some in Hm
        as (? & ? & ? & [|??] & ? & _ & ? & _); done.
    - destruct (first_match candidates (g :: csvs)); split; congruence. }
  rewrite first_match_Some. unfold name_matches at 1.
  by setoid_rewrite contains_spec.
Qed.

(** X2: the locator fails in three cases only, each with its own message:
    the folder is missing, it holds no CSV file, or no candidate holds in
    any file name; the last message lists the candidates tried and the
    files found. *)
Theorem find_first_csv_errors data_raw folder candidates :
  (folder = None →
     _find_first_csv data_raw folder candidates
     = inl (FileNotFoundError ("Expected folder not found: " +:+ data_raw)))
  ∧ (folder = Some [] →
     _find_first_csv data_raw folder candidates
     = inl (FileNotFoundError ("No CSV files found in " +:+ data_raw)))
  ∧ (∀ csvs, folder = Some csvs → csvs ≠ [] →
     (∀ c g, c ∈ candidates → g ∈ csvs → name_matches c g = false) →
     _find_first_csv data_raw folder candidates
     = inl (FileNotFoundError
              ("Could not auto-detect required CSV. Looked for "
               +:+ py_repr_list candidates +:+ " in filenames under " +:+ data_raw
               +:+ ". Found: " +:+ py_repr_list csvs)))
  ∧ ((∃ e, _find_first_csv data_raw folder candidates = inl e) ↔
     folder = None
     ∨ ∃ csvs, folder = Some csvs
               ∧ ∀ c g, c ∈ candidates → g ∈ csvs → name_matches c g = false).
Proof.
  assert (∀ csvs, first_match candidates csvs = None
                  ↔ ∀ c g, c ∈ candidates → g ∈ csvs → name_matches c g = false) as Hnone.
  { intros csvs. rewrite first_match_None, Forall_forall. split.
    - intros H c g Hc Hg. specialize (H c Hc). rewrite Forall_forall in H. auto.
    - intros H c Hc. apply Forall_forall. auto. }
  split_and!.
  - by intros ->.
  - by intros ->.
  - intros csvs -> Hne Hno. apply Hnone in Hno.
    unfold _find_first_csv. destruct csvs as [|g csvs]; [done|]. by rewrite Hno.
  - destruct folder as [csvs|]; [|split; eauto].
    split.
    + intros [e He]. right. exists csvs. split; [done|].
      unfold _find_first_csv in He. destruct csvs as [|g csvs].
      { intros c g _ Hg. by apply elem_of_nil in Hg. }
      apply Hnone. by destruct (first_match candidates (g :: csvs)).
    + intros [|(? & [= <-] & Hno)]; [done|]. apply Hnone in Hno.
      unfold _find_first_csv. destruct csvs as [|g csvs]; [eauto|].
      rewrite Hno. eauto.
Qed.

(** ** Stripped cells *)









(** ** The mapping loader, once more *)

Lemma fmap_fixed {A} (f : A → A) (l : list A) : (∀ x, x ∈ l → f x = x) → f <$> l = l.
Proof.
  intros H. induction l as [|x l IH]; [done|].
  rewrite fmap_cons, H by left. f_equal. apply IH. intros y Hy. apply H. by right.
Qed.



Lemma elem_of_normalise_columns columns c :
  c ∈ normalise_columns columns ↔
  (c ≠ "transaction_cetg_desc" ∨ "transaction_catg_desc" ∈ strip <$> columns)
  ∧ c ∈ strip <$> columns
  ∨ c = "transaction_catg_desc" ∧ "transaction_cetg_desc" ∈ strip <$> columns.
Proof.
  unfold normalise_columns. set (cols := strip <$> columns). clearbody cols.
  destruct (bool_decide ("transaction_cetg_desc" ∈ cols)) eqn:Hlegacy; simpl.
  - apply bool_decide_eq_true in Hlegacy.
    destruct (bool_decide ("transaction_catg_desc" ∈ cols)) eqn:Hcanon; simpl.
    + apply bool_decide_eq_true in Hcanon. split; [by left; split; [right|]|].
      intros [[_ ?]|[-> _]]; done.
    + apply bool_decide_eq_false in Hcanon. rewrite list_elem_of_fmap. split.
      * intros (d & -> & Hd). case_bool_decide as Heq; [by right|].
        left. split; [by left|done].
      * intros [[[Hc|?] Hin]|[-> _]]; [|done|].
        -- exists c. by rewrite bool_decide_eq_false_2.
        -- exists "transaction_cetg_desc". by rewrite bool_decide_eq_true_2.
  - apply bool_decide_eq_false in Hlegacy. split.
    + intros Hc. left. split; [|done]. left. by intros ->.
    + intros [[_ ?]|[_ ?]]; done.
Qed.

(** X5: the mapping loader raises its schema error exactly when, once the
    names of the header are stripped, one of the four columns
    [transaction_catg], [cabinet_supercategory], [agency_rollup] and
    [program_rollup] is absent, or both [transaction_catg_desc] and its
    legacy spelling [transaction_cetg_desc] are.  So it returns a mapping
    only for a header that has them, and it does return one for such a
    header when no two names are equal once stripped. *)
Theorem load_category_map_accepts file :
  let accepted :=
    "transaction_catg" ∈ strip <$> map_columns file
    ∧ "cabinet_supercategory" ∈ strip <$> map_columns file
    ∧ "agency_rollup" ∈ strip <$> map_columns file
    ∧ "program_rollup" ∈ strip <$> map_columns file
    ∧ ("transaction_catg_desc" ∈ strip <$> map_columns file
       ∨ "transaction_cetg_desc" ∈ strip <$> map_columns file) in
  ((∃ msg, load_category_map file = inl (ValueError msg)) ↔ ¬ accepted)
  ∧ ((∃ mapping, load_category_map file = inr mapping) → accepted)
  ∧ (NoDup (strip <$> map_columns file) → accepted →
     ∃ mapping, load_category_map file = inr mapping).
Proof.
  intros accepted.
  assert (accepted ↔ ∀ c, c ∈ map_required → c ∈ normalise_columns (map_columns file))
    as Haccepted.
  { unfold accepted, map_required. split.
    - intros (H1 & H2 & H3 & H4 & H5) c Hc. apply elem_of_normalise_columns.
      repeat (apply elem_of_union in Hc as [Hc|Hc]); apply elem_of_singleton in Hc as ->.
      + left. split; [by left|done].
      + destruct H5 as [H5|H5]; [|by right]. left. split; [by left|done].
      + left. split; [by left|done].
      + left. split; [by left|done].
      + left. split; [by left|done].
    - intros Hall.
      assert (∀ c, c ∈ map_required → c ≠ "transaction_catg_desc" →
                   c ≠ "transaction_cetg_desc" → c ∈ strip <$> map_columns file) as Hplain.
      { intros c Hc Hn1 Hn2.
        apply Hall, elem_of_normalise_columns in Hc as [[_ ?]|[? _]]; done. }
      split_and!; try (apply Hplain; [set_solver|done|done]).
      assert ("transaction_catg_desc" ∈ map_required) as Hc by set_solver.
      apply Hall, elem_of_normalise_columns in Hc as [[_ ?]|[_ ?]]; [by left|by right]. }
  assert ((map_required ∖ list_to_set (normalise_columns (map_columns file)) = ∅)
          ↔ accepted) as Hmissing.
  { rewrite Haccepted. split.
    - intros Hempty c Hc.
      destruct (decide (c ∈ normalise_columns (map_columns file))) as [|Hn]; [done|].
      exfalso. apply (not_elem_of_empty (C:=gset string) c). rewrite <-Hempty.
      apply elem_of_difference. split; [done|]. by rewrite elem_of_list_to_set.
    - intros Hall. apply elem_of_equiv_empty_L. intros c [Hc Hn]%elem_of_difference.
      apply Hn, elem_of_list_to_set, Hall, Hc. }
  unfold load_category_map. case_decide as Hmiss.
  - split_and!.
    + split; [|eauto]. intros _ Hacc. by apply Hmiss, Hmissing.
    + by intros [? ?].
    + intros _ Hacc. exfalso. by apply Hmiss, Hmissing.
  - split_and!.
    + split; [by intros [? ?]|]. intros Hn. exfalso. by apply Hn, Hmissing.
    + intros _. by apply Hmissing.
    + eauto.
Qed.

(** ** The enrichment, once more *)

Lemma merge_left_cons t df mapping :
  merge_left (t :: df) mapping = merge_left [t] mapping ++ merge_left df mapping.
Proof. unfold merge_left. rewrite !bind_cons. simpl. by rewrite app_nil_r. Qed.

Lemma merge_left_one t mapping :
  ∃ o rest, merge_left [t] mapping = o :: rest ∧ Enriched.txn_of o = t.
Proof.
  unfold merge_left. rewrite bind_cons. simpl. rewrite app_nil_r.
  destruct (filter (λ m, Mapping.key m = Txn.key t) mapping) as [|m ms]; simpl; eauto.
Qed.

(** X7: the left join never loses a transaction and never invents one: the
    transactions of the enriched table, read in order, contain the input
    table as a subsequence, each of them is a row of the input, and when no
    two mapping rows share a key they are the input table itself. *)
Theorem enrich_keeps_every_transaction df mapping :
  df `sublist_of` (Enriched.txn_of <$> enrich_with_rollups df mapping)
  ∧ (∀ o, o ∈ enrich_with_rollups df mapping → Enriched.txn_of o ∈ df)
  ∧ (NoDup (Mapping.key <$> mapping) →
     Enriched.txn_of <$> enrich_with_rollups df mapping = df).
Proof.
  split_and!.
  - unfold enrich_with_rollups. induction df as [|t df IH]; [constructor|].
    rewrite merge_left_cons, !fmap_app.
    destruct (merge_left_one t mapping) as (o & rest & -> & Ho).
    rewrite !fmap_cons. simpl. rewrite Ho. apply sublist_skip.
    by apply sublist_inserts_l.
  - intros o Ho. apply enrich_elem_of in Ho as (t & Ht & -> & _). done.
  - intros Hnd. rewrite enrich_with_unique_keys by (intros k; by apply NoDup_key_filter).
    rewrite <-list_fmap_compose. apply fmap_fixed. intros t _. simpl.
    unfold enrich_one. by destruct (lookup_first mapping (Txn.key t)).
Qed.

(** X8: [get_enriched] returns one row per loaded transaction, in the
    order of the transaction file: as the mapping it joins comes from the
    loader, which keeps one row per key, the join cannot fan out. *)
Theorem get_enriched_one_row_per_transaction dw_file map_file out :
  get_enriched dw_file map_file = inr out →
  ∃ df mapping,
    load_deposits_withdrawals dw_file = inr df
    ∧ load_category_map map_file = inr mapping
    ∧ Enriched.txn_of <$> out = df
    ∧ out = enrich_one mapping <$> df.
Proof.
  unfold get_enriched.
  destruct (load_deposits_withdrawals dw_file) as [|df] eqn:Hdf; [done|].
  destruct (load_category_map map_file) as [|mapping] eqn:Hmap; [done|].
  simpl. intros [= <-]. exists df, mapping. split_and!; [done..| |].
  - pose proof (load_category_map_inr _ _ Hmap) as ->.
    rewrite enrich_with_unique_keys
      by (intros k; apply NoDup_key_filter, drop_duplicates_from_NoDup).
    rewrite <-list_fmap_compose. apply fmap_fixed. intros t _. simpl.
    unfold enrich_one. by destruct (lookup_first _ (Txn.key t)).
  - pose proof (load_category_map_inr _ _ Hmap) as ->.
    apply enrich_with_unique_keys. intros k.
    apply NoDup_key_filter, drop_duplicates_from_NoDup.
Qed.

Lemma get_enriched_one_row_per_transaction_witness :
  ∃ df mapping,
    load_deposits_withdrawals scenario_dw = inr df
    ∧ load_category_map scenario_map = inr mapping
    ∧ length (enrich_one mapping <$> df) = 3
    ∧ Enriched.txn_of <$> (enrich_one mapping <$> df) = df.
Proof.
  destruct (get_enriched_one_row_per_transaction scenario_dw scenario_map
              (match get_enriched scenario_dw scenario_map with
               | inr out => out
               | inl _ => []
               end))
    as (df & mapping & Hdf & Hmap & Htxn & Hout).
  - vm_compute. reflexivity.
  - exists df, mapping. rewrite <-Hout. split_and!; [done..| |done].
    vm_compute. reflexivity.
Defined.

(** ** Grouped sums *)

Section groupby_facts.
Context (fsum : list float64 → float64).
Context {A K : Type} `{Countable K} (R : relation K) `{!RelDecision R}.
Context (key : A → option K) (amt : A → float64).

Lemma groupby_sum_keys (df : list A) :
  (groupby_sum fsum R key amt df).*1
  = merge_sort R (elements (list_to_set (omap key df) : gset K)).
Proof.
  unfold groupby_sum. rewrite <-list_fmap_compose. apply fmap_fixed. done.
Qed.

Lemma groupby_sum_key_elem_of (df : list A) k :
  k ∈ (groupby_sum fsum R key amt df).*1 ↔ ∃ r, r ∈ df ∧ key r = Some k.
Proof.
  rewrite groupby_sum_keys, merge_sort_Permutation, elem_of_elements,
    elem_of_list_to_set, list_elem_of_omap. done.
Qed.

Lemma groupby_sum_NoDup (df : list A) : NoDup (groupby_sum fsum R key amt df).*1.
Proof. rewrite groupby_sum_keys, merge_sort_Permutation. apply NoDup_elements. Qed.

Lemma groupby_sum_elem_of (df : list A) k v :
  (k, v) ∈ groupby_sum fsum R key amt df ↔
  (∃ r, r ∈ df ∧ key r = Some k)
  ∧ v = fsum (amt <$> filter (λ r, key r = Some k) df).
Proof.
  rewrite <-groupby_sum_key_elem_of, groupby_sum_keys.
  unfold groupby_sum. rewrite list_elem_of_fmap. split.
  - intros (k' & [= -> ->] & Hk). done.
  - intros [Hk ->]. by exists k.
Qed.
End groupby_facts.

(** X9: the table of sums by cabinet has one row for each cabinet that
    occurs in a row of the wanted transaction type, and no other row; the
    cabinets come in ascending order, each once; the amount of a row is the
    reduction of the amounts of the cabinet's rows of that type, taken in
    the order of the table. *)
Theorem by_cabinet_groups_exactly fsum txn_type dff :
  NoDup (Flows.by_cabinet fsum txn_type dff).*1
  ∧ Sorted String.le (Flows.by_cabinet fsum txn_type dff).*1
  ∧ ∀ c v, (c, v) ∈ Flows.by_cabinet fsum txn_type dff ↔
      (∃ r, r ∈ dff ∧ of_type txn_type r ∧ Enriched.cabinet_supercategory r = Some c)
      ∧ v = fsum (amt_of <$> filter (λ r, Enriched.cabinet_supercategory r = Some c
                                          ∧ of_type txn_type r) dff).
Proof.
  unfold Flows.by_cabinet. split_and!.
  - apply groupby_sum_NoDup.
  - rewrite groupby_sum_keys. apply (Sorted_merge_sort String.le).
  - intros c v. rewrite groupby_sum_elem_of, list_filter_filter.
    apply and_iff_compat_r. split.
    + intros (r & [? ?]%list_elem_of_filter & ?). eauto.
    + intros (r & ? & ? & ?). exists r. by rewrite list_elem_of_filter.
Qed.

(** ** The shape of the cabinet graph *)

(** On a list without duplicates the dictionary of positions inverts the
    list. *)
Lemma node_index_NoDup nodes i x :
  NoDup nodes → nodes !! i = Some x → node_index nodes !! x = Some i.
Proof.
  intros Hnd Hi.
  destruct (node_index_lookup nodes x) as (j & Hj & Hx); [by eapply list_elem_of_lookup_2|].
  rewrite Hj. f_equal. by eapply NoDup_lookup.
Qed.

Lemma traverse_lookup_node_segment nodes (l : list string) :
  NoDup nodes →
  ∀ pre suf, nodes = pre ++ l ++ suf →
    traverse (lookup_node (node_index nodes)) l = inr (seq (length pre) (length l)).
Proof.
  intros Hnd. induction l as [|x l IH]; intros pre suf Heq; [done|].
  cbn [traverse]. unfold lookup_node at 1.
  rewrite (node_index_NoDup nodes (length pre) x Hnd).
  - simpl. rewrite (IH (pre ++ [x]) suf).
    + simpl. rewrite length_app. simpl. by rewrite Nat.add_1_r.
    + by rewrite Heq, <-app_assoc.
  - rewrite Heq. by rewrite lookup_app_r, Nat.sub_diag by lia.
Qed.

Lemma NoDup_prefixed (p : string) (l : list string) :
  NoDup l → NoDup ((λ c, p +:+ c) <$> l).
Proof.
  apply NoDup_fmap_2. intros c c' Heq.
  induction p as [|a p IH]; simpl in Heq; [done|]. injection Heq as Heq. by apply IH.
Qed.

Lemma flows_labels_NoDup (dep wdr : list (string * float64)) :
  NoDup dep.*1 → NoDup wdr.*1 →
  NoDup ((Flows.dep_node <$> dep) ++ [Flows.tga_node] ++ (Flows.wdr_node <$> wdr)).
Proof.
  intros Hdep Hwdr. apply NoDup_app. split_and!.
  - change Flows.dep_node with ((λ c, "Deposits: " +:+ c) ∘ (fst : string * float64 → string)).
    rewrite list_fmap_compose. by apply NoDup_prefixed.
  - intros x (r & -> & _)%list_elem_of_fmap Hin.
    apply elem_of_app in Hin as [Hin%list_elem_of_singleton|Hin]; [done|].
    by apply list_elem_of_fmap in Hin as (s & ? & _).
  - apply NoDup_app. split_and!.
    + apply NoDup_singleton.
    + intros x ->%list_elem_of_singleton Hin.
      by apply list_elem_of_fmap in Hin as (s & ? & _).
    + change Flows.wdr_node
        with ((λ c, "Withdrawals: " +:+ c) ∘ (fst : string * float64 → string)).
      rewrite list_fmap_compose. by apply NoDup_prefixed.
Qed.

Lemma flows_build_star (dep wdr : list (string * float64)) :
  NoDup dep.*1 → NoDup wdr.*1 →
  Flows.build dep wdr
  = inr (Sankey ((Flows.dep_node <$> dep) ++ [Flows.tga_node] ++ (Flows.wdr_node <$> wdr))
           (seq 0 (length dep) ++ replicate (length wdr) (length dep))
           (replicate (length dep) (length dep) ++ seq (S (length dep)) (length wdr))
           (dep.*2 ++ wdr.*2)).
Proof.
  intros Hdep Hwdr. pose proof (flows_labels_NoDup dep wdr Hdep Hwdr) as Hnd.
  unfold Flows.build.
  rewrite (traverse_lookup_node_segment _ (Flows.dep_node <$> dep) Hnd []
             ([Flows.tga_node] ++ (Flows.wdr_node <$> wdr))) by done.
  cbn [bind]. unfold lookup_node at 1 2.
  rewrite (node_index_NoDup _ (length dep) Flows.tga_node Hnd).
  2:{ rewrite lookup_app_r; rewrite length_fmap; [|lia]. by rewrite Nat.sub_diag. }
  cbn [bind].
  rewrite (traverse_lookup_node_segment _ (Flows.wdr_node <$> wdr) Hnd
             ((Flows.dep_node <$> dep) ++ [Flows.tga_node]) []).
  2:{ by rewrite app_nil_r, <-app_assoc. }
  cbn [bind]. rewrite !length_fmap, length_app, length_fmap. simpl.
  by rewrite Nat.add_1_r.
Qed.

(** X10: once the date control has returned a range, the figure of the
    Flows page is a star around the account node.  With [d] cabinets on the
    deposit side and [w] on the withdrawal side, the labels are pairwise
    distinct, the deposit nodes are the positions [0 .. d-1], the account
    node is position [d], the withdrawal nodes are the positions
    [d+1 .. d+w]; every deposit edge runs from its cabinet to the account,
    every withdrawal edge from the account to its cabinet; no lookup in
    [node_index] raises [KeyError]. *)
Theorem flows_page_is_a_star fsum df start_date end_date show_unmapped :
  let dff := select_range df start_date end_date show_unmapped in
  let dep := Flows.by_cabinet fsum "Deposits" dff in
  let wdr := Flows.by_cabinet fsum "Withdrawals" dff in
  Flows.page fsum df start_date end_date show_unmapped
  = Plot (Sankey ((Flows.dep_node <$> dep) ++ [Flows.tga_node] ++ (Flows.wdr_node <$> wdr))
            (seq 0 (length dep) ++ replicate (length wdr) (length dep))
            (replicate (length dep) (length dep) ++ seq (S (length dep)) (length wdr))
            (dep.*2 ++ wdr.*2))
  ∧ NoDup ((Flows.dep_node <$> dep) ++ [Flows.tga_node] ++ (Flows.wdr_node <$> wdr)).
Proof.
  intros dff dep wdr.
  assert (NoDup dep.*1 ∧ NoDup wdr.*1) as [Hdep Hwdr]
    by (split; apply groupby_sum_NoDup).
  split; [|by apply flows_labels_NoDup].
  unfold Flows.page. fold dff. fold dep. fold wdr. by rewrite flows_build_star.
Qed.

(** ** The drill-down graph *)

Lemma traverse_inr {A B} (f : A → exn + B) (g : A → B) (l : list A) :
  (∀ x, x ∈ l → f x = inr (g x)) → traverse f l = inr (g <$> l).
Proof.
  induction l as [|x l IH]; intros Hf; [done|].
  cbn [traverse]. rewrite Hf by left. cbn [bind].
  rewrite IH by (intros y Hy; apply Hf; by right). done.
Qed.

(** The position the dictionary gives a label, 0 standing for none. *)
Lemma lookup_node_elem_of nodes x :
  x ∈ nodes →
  lookup_node (node_index nodes) x = inr (default 0 (node_index nodes !! x))
  ∧ nodes !! default 0 (node_index nodes !! x) = Some x.
Proof.
  intros Hx. destruct (node_index_lookup nodes x Hx) as (i & Hi & Hn).
  unfold lookup_node. by rewrite Hi.
Qed.

Lemma drilldown_build_ok cabinet (totals : list (string * float64))
    (prog2 : list Drilldown.prog_row) :
  (∀ r, r ∈ prog2 → Drilldown.agency_rollup r ∈ totals.*1) →
  ∃ fig, Drilldown.build cabinet totals prog2 = inr fig
    ∧ label fig = cabinet :: ((Drilldown.agency_node ∘ fst) <$> totals)
                           ++ (Drilldown.program_node <$> prog2)
    ∧ (λ i, label fig !! i) <$> source fig
      = Some <$> (replicate (length totals) cabinet
                  ++ ((Drilldown.agency_node ∘ Drilldown.agency_rollup) <$> prog2))
    ∧ (λ i, label fig !! i) <$> target fig
      = Some <$> (((Drilldown.agency_node ∘ fst) <$> totals)
                  ++ (Drilldown.program_node <$> prog2))
    ∧ value fig = totals.*2 ++ (Drilldown.amt <$> prog2).
Proof.
  intros Hsub. unfold Drilldown.build.
  set (nodes := [cabinet] ++ ((Drilldown.agency_node ∘ fst) <$> totals)
                ++ (Drilldown.program_node <$> prog2)).
  set (pos := λ x, default 0 (node_index nodes !! x)).
  assert (cabinet ∈ nodes) as Hcab by left.
  assert (∀ a, a ∈ totals.*1 → Drilldown.agency_node a ∈ nodes) as Hagency.
  { intros a (r & -> & Hr)%list_elem_of_fmap. right. apply elem_of_app. left.
    apply list_elem_of_fmap. by exists r. }
  assert (∀ r, r ∈ prog2 → Drilldown.program_node r ∈ nodes) as Hprog.
  { intros r Hr. right. apply elem_of_app. right. by apply list_elem_of_fmap_2. }
  rewrite (traverse_inr _ (λ r, (pos cabinet, pos (Drilldown.agency_node r.1), r.2))).
  2:{ intros r Hr.
      rewrite (proj1 (lookup_node_elem_of nodes cabinet Hcab)). cbn [bind].
      rewrite (proj1 (lookup_node_elem_of nodes (Drilldown.agency_node r.1)
                        (Hagency _ (list_elem_of_fmap_2 fst _ _ Hr)))). done. }
  cbn [bind].
  rewrite (traverse_inr _
             (λ r, (pos (Drilldown.agency_node (Drilldown.agency_rollup r)),
                    pos (Drilldown.program_node r), Drilldown.amt r))).
  2:{ intros r Hr.
      rewrite (proj1 (lookup_node_elem_of nodes _ (Hagency _ (Hsub r Hr)))). cbn [bind].
      rewrite (proj1 (lookup_node_elem_of nodes _ (Hprog r Hr))). done. }
  cbn [bind]. eexists. split; [done|]. cbn [label source target value].
  split_and!.
  - done.
  - rewrite !fmap_app, <-!list_fmap_compose. f_equal.
    + rewrite fmap_replicate. apply const_fmap. intros i r _. simpl.
      apply (lookup_node_elem_of nodes cabinet Hcab).
    + apply list_fmap_ext. intros i r Hr. simpl.
      apply (lookup_node_elem_of nodes), Hagency, Hsub.
      by eapply list_elem_of_lookup_2.
  - rewrite !fmap_app, <-!list_fmap_compose. f_equal.
    + apply list_fmap_ext. intros i r Hr. simpl.
      apply (lookup_node_elem_of nodes), Hagency, list_elem_of_fmap_2.
      by eapply list_elem_of_lookup_2.
    + apply list_fmap_ext. intros i r Hr. simpl.
      apply (lookup_node_elem_of nodes), Hprog. by eapply list_elem_of_lookup_2.
  - rewrite fmap_app, <-!list_fmap_compose. done.
Qed.

Lemma agency_totals_keys fsum x a :
  a ∈ (Drilldown.agency_totals fsum x).*1 ↔ ∃ r, r ∈ x ∧ Enriched.agency_rollup r = Some a.
Proof.
  unfold Drilldown.agency_totals.
  rewrite stable_sort_Permutation. apply groupby_sum_key_elem_of.
Qed.

Lemma prog_of_elem_of fsum x r :
  r ∈ Drilldown.prog_of fsum x ↔
  (∃ e, e ∈ x ∧ Enriched.agency_rollup e = Some (Drilldown.agency_rollup r)
        ∧ Enriched.program_rollup e = Some (Drilldown.program_rollup r))
  ∧ Drilldown.amt r
    = fsum (amt_of <$> filter (λ e, Enriched.agency_rollup e = Some (Drilldown.agency_rollup r)
                                    ∧ Enriched.program_rollup e
                                      = Some (Drilldown.program_rollup r)) x).
Proof.
  assert (∀ (e : Enriched.row) a p,
            (a' ← Enriched.agency_rollup e; p' ← Enriched.program_rollup e; Some (a', p'))
            = Some (a, p)
            ↔ Enriched.agency_rollup e = Some a ∧ Enriched.program_rollup e = Some p) as Hkey.
  { intros e a p. destruct (Enriched.agency_rollup e), (Enriched.program_rollup e); simpl;
      split; try done; try (by intros [? ?]).
    - by intros [= -> ->].
    - by intros [[= ->] [= ->]]. }
  unfold Drilldown.prog_of. rewrite list_elem_of_fmap. split.
  - intros ([[a p] v] & -> & Hin). simpl.
    apply groupby_sum_elem_of in Hin as [(e & He & Hk) ->].
    split; [exists e; split; [done|]; by apply Hkey|].
    f_equal. f_equal. apply list_filter_iff. intros e'. apply Hkey.
  - destruct r as [a p v]. simpl. intros [(e & He & Ha & Hp) ->].
    eexists (a, p, _). split; [done|]. apply groupby_sum_elem_of.
    split; [exists e; split; [done|]; by apply Hkey|].
    f_equal. f_equal. apply list_filter_iff. intros e'. symmetry. apply Hkey.
Qed.

(** The bucketing invents no agency. *)
Lemma bucket_agency fsum n prog r :
  r ∈ Drilldown.bucket fsum n prog →
  ∃ r', r' ∈ prog ∧ Drilldown.agency_rollup r' = Drilldown.agency_rollup r.
Proof.
  intros Hr.
  assert (r ∈ children (Drilldown.agency_rollup r) (Drilldown.bucket fsum n prog)) as Hc.
  { by apply list_elem_of_filter. }
  rewrite children_of_bucket in Hc.
  set (l := ranked (Drilldown.agency_rollup r) (filter numeric prog)) in Hc.
  assert (∃ r', r' ∈ l) as [r' Hr'].
  { rewrite <-(take_drop (Z.to_nat n) l).
    apply elem_of_app in Hc as [Hc|Hc]; [exists r; apply elem_of_app; by left|].
    destruct (drop (Z.to_nat n) l) as [|r' rest]; [by apply elem_of_nil in Hc|].
    exists r'. apply elem_of_app. right. left. }
  exists r'. unfold l, ranked in Hr'. rewrite stable_sort_Permutation in Hr'.
  apply list_elem_of_filter in Hr' as [Ha Hr'].
  apply list_elem_of_filter in Hr' as [_ Hr']. done.
Qed.

(** X11: the Drilldown page never raises.  It stops with the first message
    when the selection holds no cabinet, with the second when it holds no
    row of the picked cabinet and transaction type, and otherwise plots a
    figure whose labels are the cabinet, one node per agency total and one
    node per program row; every edge index points into the label list, the
    first group of edges running from the cabinet to each agency, the
    second from the agency of each program row to the row's node. *)
Theorem drilldown_page_outcome fsum df start_date end_date show_unmapped
    txn_type cabinet per_agency_top :
  let dff := select_range df start_date end_date show_unmapped in
  let x := filter (λ r, eq_label (Enriched.cabinet_supercategory r) cabinet = true
                        ∧ of_type txn_type r) dff in
  let totals := Drilldown.agency_totals fsum x in
  let prog2 := Drilldown.bucket fsum per_agency_top (Drilldown.prog_of fsum x) in
  let page := Drilldown.page fsum df start_date end_date show_unmapped txn_type cabinet
                per_agency_top in
  (Drilldown.cab_options dff = [] →
     page = Stop "No data available for the selected date range.")
  ∧ (Drilldown.cab_options dff ≠ [] → x = [] →
     page = Stop "No rows for that cabinet/transaction type in the selected range.")
  ∧ (x ≠ [] →
     ∃ fig, page = Plot fig
       ∧ label fig = cabinet :: ((Drilldown.agency_node ∘ fst) <$> totals)
                              ++ (Drilldown.program_node <$> prog2)
       ∧ (λ i, label fig !! i) <$> source fig
         = Some <$> (replicate (length totals) cabinet
                     ++ ((Drilldown.agency_node ∘ Drilldown.agency_rollup) <$> prog2))
       ∧ (λ i, label fig !! i) <$> target fig
         = Some <$> (((Drilldown.agency_node ∘ fst) <$> totals)
                     ++ (Drilldown.program_node <$> prog2))
       ∧ value fig = totals.*2 ++ (Drilldown.amt <$> prog2))
  ∧ ∀ e, page ≠ Raise e.
Proof.
  intros dff x totals prog2 page.
  assert (∃ fig, Drilldown.build cabinet totals prog2 = inr fig
            ∧ label fig = cabinet :: ((Drilldown.agency_node ∘ fst) <$> totals)
                                   ++ (Drilldown.program_node <$> prog2)
            ∧ (λ i, label fig !! i) <$> source fig
              = Some <$> (replicate (length totals) cabinet
                          ++ ((Drilldown.agency_node ∘ Drilldown.agency_rollup) <$> prog2))
            ∧ (λ i, label fig !! i) <$> target fig
              = Some <$> (((Drilldown.agency_node ∘ fst) <$> totals)
                          ++ (Drilldown.program_node <$> prog2))
            ∧ value fig = totals.*2 ++ (Drilldown.amt <$> prog2)) as Hbuild.
  { apply drilldown_build_ok. intros r Hr.
    apply bucket_agency in Hr as (r' & Hr' & <-).
    apply prog_of_elem_of in Hr' as [(e & He & Ha & _) _].
    apply agency_totals_keys. eauto. }
  assert (x ≠ [] → Drilldown.cab_options dff ≠ []) as Hopts.
  { intros Hx Hnil. destruct x as [|r x'] eqn:Heq; [done|].
    assert (r ∈ filter (λ r, eq_label (Enriched.cabinet_supercategory r) cabinet = true
                             ∧ of_type txn_type r) dff) as Hr by (fold x; rewrite Heq; left).
    apply list_elem_of_filter in Hr as [[Hc _] Hr].
    destruct (Enriched.cabinet_supercategory r) as [c|] eqn:Hcab; [|done].
    assert (c ∈ Drilldown.cab_options dff) as Hin.
    { apply sorted_elem_of, elem_of_list_to_set, list_elem_of_omap. eauto. }
    rewrite Hnil in Hin. by apply elem_of_nil in Hin. }
  unfold page, Drilldown.page. fold dff. fold x. fold totals. fold prog2.
  split_and!.
  - by intros ->.
  - intros Hne ->. by destruct (Drilldown.cab_options dff).
  - intros Hx. destruct Hbuild as (fig & Hfig & Hrest). exists fig. split; [|done].
    specialize (Hopts Hx). destruct (Drilldown.cab_options dff); [done|].
    destruct x; [done|]. by rewrite Hfig.
  - intros e. destruct (Drilldown.cab_options dff); [done|].
    destruct x eqn:Heq; [done|]. destruct Hbuild as (fig & -> & _). done.
Qed.

(** X12: the table of agency totals has one row for each agency of the
    selection, each once, with the reduction of the agency's amounts; it is
    ordered from the largest total to the smallest, NaN totals last; and
    the agency of every program row that reaches the figure is among
    them. *)
Theorem agency_totals_cover_programs fsum per_agency_top x :
  NoDup (Drilldown.agency_totals fsum x).*1
  ∧ StronglySorted (λ r s, desc_le r.2 s.2 = true) (Drilldown.agency_totals fsum x)
  ∧ (∀ a v, (a, v) ∈ Drilldown.agency_totals fsum x ↔
       (∃ r, r ∈ x ∧ Enriched.agency_rollup r = Some a)
       ∧ v = fsum (amt_of <$> filter (λ r, Enriched.agency_rollup r = Some a) x))
  ∧ (∀ r, r ∈ Drilldown.bucket fsum per_agency_top (Drilldown.prog_of fsum x) →
       Drilldown.agency_rollup r ∈ (Drilldown.agency_totals fsum x).*1).
Proof.
  split_and!.
  - unfold Drilldown.agency_totals. rewrite stable_sort_Permutation.
    apply groupby_sum_NoDup.
  - apply stable_sort_StronglySorted.
    + intros r s. apply desc_le_total.
    + intros r s t. apply desc_le_trans.
  - intros a v. unfold Drilldown.agency_totals. rewrite stable_sort_Permutation.
    apply groupby_sum_elem_of.
  - intros r Hr. apply bucket_agency in Hr as (r' & Hr' & <-).
    apply prog_of_elem_of in Hr' as [(e & He & Ha & _) _].
    apply agency_totals_keys. eauto.
Qed.

(** X13: whatever the table of program sums, the bucketing leaves at most
    [per_agency_top] + 1 rows to an agency, at most one of them made by the
    bucketing, and it leaves none exactly when the agency has no program
    whose sum is a number. *)
Theorem bucket_bounds_rows_per_agency fsum n prog a :
  length (children a (Drilldown.bucket fsum n prog)) ≤ Z.to_nat n + 1
  ∧ (children a (Drilldown.bucket fsum n prog) = []
     ↔ filter numeric (children a prog) = [])
  ∧ take (Z.to_nat n) (children a (Drilldown.bucket fsum n prog))
    `sublist_of` ranked a (filter numeric prog).
Proof.
  rewrite children_of_bucket.
  set (l := ranked a (filter numeric prog)).
  assert (length l = length (filter numeric (children a prog))) as Hlen.
  { unfold l, ranked. rewrite (Permutation_length (stable_sort_Permutation _ _)).
    unfold children. rewrite !list_filter_filter. f_equal.
    apply list_filter_iff. intros r. tauto. }
  split_and!.
  - rewrite length_app.
    pose proof (firstn_le_length (Z.to_nat n) l) as Ht.
    destruct (drop (Z.to_nat n) l); simpl; lia.
  - rewrite <-(length_zero_iff_nil (filter _ _)), <-Hlen.
    rewrite <-(take_drop (Z.to_nat n) l) at 3. rewrite length_app.
    split.
    + intros [Ht Hd]%app_eq_nil. rewrite Ht.
      destruct (drop (Z.to_nat n) l); [done|discriminate].
    + intros Hz.
      assert (take (Z.to_nat n) l = []) as -> by (apply length_zero_iff_nil; lia).
      assert (drop (Z.to_nat n) l = []) as -> by (apply length_zero_iff_nil; lia).
      done.
  - destruct (decide (length l ≤ Z.to_nat n)) as [Hle|Hgt].
    + rewrite (take_ge l), (drop_ge l) by done. rewrite app_nil_r.
      apply sublist_take.
    + rewrite take_app_le by (rewrite length_take; lia).
      rewrite take_take. apply sublist_take.
Qed.

(** ** The selection *)

(** X14: the date filter works on whole days and is inclusive at both
    ends: a row is selected exactly when its timestamp lies between the
    first second of the start day and the last second of the end day, and
    (when unmapped rows are hidden) its cabinet is not "Unmapped".  The
    selection keeps the rows in the order of the table. *)
Theorem select_range_whole_days df start_date end_date show_unmapped :
  select_range df start_date end_date show_unmapped `sublist_of` df
  ∧ ∀ r c, Enriched.cabinet_supercategory r = Some c →
      (r ∈ select_range df start_date end_date show_unmapped ↔
       r ∈ df
       ∧ (start_date * 86400 ≤ Txn.record_date (Enriched.txn_of r)
          < (end_date + 1) * 86400)%Z
       ∧ (show_unmapped = false → c ≠ "Unmapped")).
Proof.
  split.
  - unfold select_range. destruct show_unmapped.
    + apply sublist_filter.
    + etrans; apply sublist_filter.
  - intros r c Hc.
    assert (∀ t, (start_date ≤ date_of t ∧ date_of t ≤ end_date
                  ↔ start_date * 86400 ≤ t < (end_date + 1) * 86400)%Z) as Hday.
    { intros t. unfold date_of. Z.div_mod_to_equations. lia. }
    unfold select_range. destruct show_unmapped.
    + rewrite list_elem_of_filter, Hday. split; [|tauto]. intros [? ?]. done.
    + rewrite !list_elem_of_filter, Hday. unfold ne_label. rewrite Hc.
      rewrite bool_decide_eq_true. split; [|tauto]. intros (? & ? & ?). done.
Qed.

(** ** The net table *)

Lemma by_cabinet_elem_of fsum txn_type dff c v :
  (c, v) ∈ Flows.by_cabinet fsum txn_type dff ↔
  (∃ r, r ∈ dff ∧ of_type txn_type r ∧ Enriched.cabinet_supercategory r = Some c)
  ∧ v = fsum (amt_of <$> filter (λ r, Enriched.cabinet_supercategory r = Some c
                                      ∧ of_type txn_type r) dff).
Proof.
  unfold Flows.by_cabinet. rewrite groupby_sum_elem_of, list_filter_filter.
  apply and_iff_compat_r. split.
  - intros (r & [? ?]%list_elem_of_filter & ?). eauto.
  - intros (r & ? & ? & ?). exists r. by rewrite list_elem_of_filter.
Qed.

Lemma by_cabinet_key_elem_of fsum txn_type dff c :
  c ∈ (Flows.by_cabinet fsum txn_type dff).*1 ↔
  ∃ r, r ∈ dff ∧ of_type txn_type r ∧ Enriched.cabinet_supercategory r = Some c.
Proof.
  unfold Flows.by_cabinet. rewrite groupby_sum_key_elem_of. split.
  - intros (r & [? ?]%list_elem_of_filter & ?). eauto.
  - intros (r & ? & ? & ?). exists r. by rewrite list_elem_of_filter.
Qed.

Lemma side_of_by_cabinet fsum txn_type dff c :
  fillna0 (side_of (Flows.by_cabinet fsum txn_type dff) c) = side_total fsum txn_type c dff.
Proof.
  unfold side_of, side_total.
  destruct (list_find _ _) as [[i [c' v]]|] eqn:Hfind.
  - apply list_find_Some in Hfind as (Hi & Hc & _). simpl in Hc. subst c'.
    apply list_elem_of_lookup_2, by_cabinet_elem_of in Hi as [(r & Hr & Hty & Hcab) ->].
    simpl.
    destruct (filter _ dff) as [|r0 rows] eqn:Hrows; [|done].
    exfalso. eapply (filter_nil_not_elem_of _ _ r Hrows); [|done]. done.
  - apply list_find_None in Hfind. simpl.
    destruct (filter _ dff) as [|r0 rows] eqn:Hrows; [done|].
    exfalso.
    assert (r0 ∈ filter (λ r, Enriched.cabinet_supercategory r = Some c
                              ∧ of_type txn_type r) dff) as Hr0
      by (rewrite Hrows; left).
    apply list_elem_of_filter in Hr0 as [[Hcab Hty] Hr0].
    assert (c ∈ (Flows.by_cabinet fsum txn_type dff).*1) as Hin
      by (apply by_cabinet_key_elem_of; eauto).
    apply list_elem_of_fmap in Hin as ([c' v] & -> & Hin).
    rewrite Forall_forall in Hfind. by apply (Hfind _ Hin).
Qed.

Lemma net_tbl_unsorted fsum dff :
  net_tbl fsum dff
  = stable_sort (λ r s, desc_le (withdrawals r) (withdrawals s))
      ((λ c, NetRow c (side_total fsum "Deposits" c dff) (side_total fsum "Withdrawals" c dff)
                  (f64_sub (side_total fsum "Deposits" c dff)
                           (side_total fsum "Withdrawals" c dff)))
         <$> sorted (list_to_set ((Flows.by_cabinet fsum "Deposits" dff).*1
                                  ++ (Flows.by_cabinet fsum "Withdrawals" dff).*1))).
Proof.
  unfold net_tbl, merge_outer. rewrite <-!list_fmap_compose. f_equal.
  apply list_fmap_ext. intros i c _. simpl. by rewrite !side_of_by_cabinet.
Qed.

Lemma side_total_notnan fsum txn_type c dff :
  f64_isnan (side_total fsum txn_type c dff) = false.
Proof.
  unfold side_total. destruct (filter _ dff) as [|r rows]; [done|].
  generalize (fsum (amt_of <$> r :: rows)). intros v. by destruct v.
Qed.

(** X15: the net table has one row for each cabinet that has a deposit or
    a withdrawal in the selection, each cabinet once.  A side on which the
    cabinet has no row reads 0, never NaN; the other cells are the sums of
    the cabinet's rows; [net] is deposits minus withdrawals; the rows run
    from the largest withdrawals to the smallest. *)
Theorem net_tbl_covers_both_sides fsum dff :
  NoDup (cabinet <$> net_tbl fsum dff)
  ∧ StronglySorted (λ r s, f64_leb (withdrawals s) (withdrawals r) = true) (net_tbl fsum dff)
  ∧ (∀ c, c ∈ cabinet <$> net_tbl fsum dff ↔
       ∃ r, r ∈ dff ∧ Enriched.cabinet_supercategory r = Some c
            ∧ (of_type "Deposits" r ∨ of_type "Withdrawals" r))
  ∧ (∀ row, row ∈ net_tbl fsum dff →
       deposits row = side_total fsum "Deposits" (cabinet row) dff
       ∧ withdrawals row = side_total fsum "Withdrawals" (cabinet row) dff
       ∧ net row = f64_sub (deposits row) (withdrawals row)
       ∧ f64_isnan (deposits row) = false
       ∧ f64_isnan (withdrawals row) = false).
Proof.
  rewrite net_tbl_unsorted.
  set (mk := λ c, NetRow c _ _ _).
  set (keys := sorted _).
  assert (cabinet <$> (mk <$> keys) = keys) as Hkeys.
  { rewrite <-list_fmap_compose. by apply fmap_fixed. }
  assert (∀ row, row ∈ stable_sort (λ r s, desc_le (withdrawals r) (withdrawals s)) (mk <$> keys) →
            deposits row = side_total fsum "Deposits" (cabinet row) dff
            ∧ withdrawals row = side_total fsum "Withdrawals" (cabinet row) dff
            ∧ net row = f64_sub (deposits row) (withdrawals row)
            ∧ f64_isnan (deposits row) = false
            ∧ f64_isnan (withdrawals row) = false) as Hrows.
  { intros row Hrow. rewrite stable_sort_Permutation in Hrow.
    apply list_elem_of_fmap in Hrow as (c & -> & _). simpl.
    split_and!; try done; apply side_total_notnan. }
  split_and!.
  - rewrite stable_sort_Permutation, Hkeys. apply sorted_NoDup.
  - eapply StronglySorted_impl_elem_of;
      [|apply stable_sort_StronglySorted;
        [intros r s; apply desc_le_total|intros r s t; apply desc_le_trans]].
    intros r s Hr Hs Hle. simpl in Hle.
    rewrite desc_le_notnan in Hle; [done| |].
    + by apply Hrows.
    + by apply Hrows.
  - intros c. rewrite stable_sort_Permutation, Hkeys. unfold keys.
    rewrite sorted_elem_of, elem_of_list_to_set, elem_of_app, !by_cabinet_key_elem_of.
    split.
    + intros [(r & ? & ? & ?)|(r & ? & ? & ?)]; exists r; auto.
    + intros (r & ? & ? & [?|?]); [left|right]; exists r; auto.
  - done.
Qed.

(** ** The default cabinet *)

Lemma list_index_elem_of x l :
  x ∈ l → ∃ i, list_index x l = inr i ∧ l !! i = Some x.
Proof.
  intros Hx. unfold list_index.
  destruct (list_find_elem_of (λ y, y = x) l x Hx eq_refl) as [[i y] Hfind].
  rewrite Hfind. apply list_find_Some in Hfind as (Hi & -> & _). eauto.
Qed.

Lemma stable_sort_head_least {A} (le : A → A → bool) (l : list A) x rest :
  (∀ x y, le x y = true ∨ le y x = true) →
  (∀ x y z, le x y = true → le y z = true → le x z = true) →
  stable_sort le l = x :: rest →
  x ∈ l ∧ ∀ y, y ∈ l → le x y = true.
Proof.
  intros Htotal Htrans Heq.
  pose proof (stable_sort_StronglySorted le Htotal Htrans l) as Hsorted.
  pose proof (stable_sort_Permutation le l) as Hperm.
  rewrite Heq in Hsorted, Hperm. split; [rewrite <-Hperm; left|].
  intros y Hy. rewrite <-Hperm in Hy.
  apply StronglySorted_inv in Hsorted as [_ Hall]. rewrite Forall_forall in Hall.
  apply elem_of_cons in Hy as [->|Hy]; [|by apply Hall].
  by destruct (Htotal x x).
Qed.

(** X16: when the selection holds a cabinet, the default cabinet is one of
    the options of the select box, so looking up its position cannot fail.
    It is the cabinet of the session when the options hold it; otherwise,
    when the selection has rows of the transaction type, it is a cabinet
    whose sum stands before every other in the descending order. *)
Theorem default_cab_is_an_option fsum selected txn_type dff :
  Drilldown.cab_options dff ≠ [] →
  ∃ c i,
    default_cab fsum selected txn_type dff = Some c
    ∧ list_index c (Drilldown.cab_options dff) = inr i
    ∧ Drilldown.cab_options dff !! i = Some c
    ∧ (∀ s, selected = Some s → s ∈ Drilldown.cab_options dff → c = s)
    ∧ ((∀ s, selected = Some s → s ∉ Drilldown.cab_options dff) →
       Flows.by_cabinet fsum txn_type dff ≠ [] →
       ∃ v, (c, v) ∈ Flows.by_cabinet fsum txn_type dff
            ∧ ∀ r, r ∈ Flows.by_cabinet fsum txn_type dff → desc_le v r.2 = true).
Proof.
  intros Hne.
  assert (∀ r rest, largest_first fsum txn_type dff = r :: rest →
            r ∈ Flows.by_cabinet fsum txn_type dff
            ∧ ∀ s, s ∈ Flows.by_cabinet fsum txn_type dff → desc_le r.2 s.2 = true) as Hbest.
  { intros r rest Heq.
    apply (stable_sort_head_least (λ r s, desc_le r.2 s.2) _ r rest); [| |done].
    - intros x y. apply desc_le_total.
    - intros x y z. apply desc_le_trans. }
  assert (∀ r, r ∈ Flows.by_cabinet fsum txn_type dff → r.1 ∈ Drilldown.cab_options dff)
    as Hopt.
  { intros r Hr.
    assert (r.1 ∈ (Flows.by_cabinet fsum txn_type dff).*1) as Hk
      by (by apply list_elem_of_fmap_2).
    apply by_cabinet_key_elem_of in Hk as (e & He & _ & Hc).
    apply sorted_elem_of, elem_of_list_to_set, list_elem_of_omap. eauto. }
  assert (∃ c, default_cab fsum selected txn_type dff = Some c
            ∧ c ∈ Drilldown.cab_options dff
            ∧ (∀ s, selected = Some s → s ∈ Drilldown.cab_options dff → c = s)
            ∧ ((∀ s, selected = Some s → s ∉ Drilldown.cab_options dff) →
               Flows.by_cabinet fsum txn_type dff ≠ [] →
               ∃ v, (c, v) ∈ Flows.by_cabinet fsum txn_type dff
                    ∧ ∀ r, r ∈ Flows.by_cabinet fsum txn_type dff → desc_le v r.2 = true))
    as (c & Hdef & Hin & Hsel & Hmax).
  { unfold default_cab.
    destruct (Drilldown.cab_options dff) as [|first options] eqn:Hoptions; [done|].
    set (fallback := match largest_first fsum txn_type dff with
                     | r :: _ => r.1
                     | [] => first
                     end).
    assert (fallback ∈ first :: options
            ∧ (Flows.by_cabinet fsum txn_type dff ≠ [] →
               ∃ v, (fallback, v) ∈ Flows.by_cabinet fsum txn_type dff
                    ∧ ∀ r, r ∈ Flows.by_cabinet fsum txn_type dff → desc_le v r.2 = true))
      as [Hfb Hfbmax].
    { unfold fallback.
      destruct (largest_first fsum txn_type dff) as [|[c v] rest] eqn:Hl.
      - split; [left|]. intros Hnonempty. exfalso. apply Hnonempty.
        apply Permutation_nil_r. rewrite <-Hl. unfold largest_first.
        symmetry. apply stable_sort_Permutation.
      - destruct (Hbest _ _ eq_refl) as [Hr Hle]. split; [by apply (Hopt (c, v))|].
        intros _. by exists v. }
    destruct selected as [s|].
    - destruct (decide (s ∈ first :: options)) as [Hs|Hs].
      + exists s. split_and!; [done|done|by intros ? [= ->]|].
        intros Hnot. by destruct (Hnot s eq_refl).
      + exists fallback. split_and!; [done|done| |by intros _].
        intros ? [= <-] ?. done.
    - exists fallback. split_and!; [done|done|done|by intros _]. }
  destruct (list_index_elem_of c _ Hin) as (i & Hi & Hlook).
  exists c, i. done.
Qed.

Lemma default_cab_is_an_option_witness :
  ∃ c i,
    default_cab naive_sum (Some "Defense") "Deposits"
      [enriched_on 19727 "Treasury"; enriched_on 19730 "Interior"] = Some c
    ∧ list_index c (Drilldown.cab_options
                      [enriched_on 19727 "Treasury"; enriched_on 19730 "Interior"]) = inr i.
Proof.
  destruct (default_cab_is_an_option naive_sum (Some "Defense") "Deposits"
              [enriched_on 19727 "Treasury"; enriched_on 19730 "Interior"])
    as (c & i & Hc & Hi & _).
  - vm_compute. discriminate.
  - exists c, i. split; [exact Hc|exact Hi].
Defined.

(** ** The candidates of the two locators *)

Lemma append_assoc' (a b c : string) : (a +:+ b) +:+ c = a +:+ (b +:+ c).
Proof. induction a as [|x a IH]; [done|]. exact (f_equal (String x) IH). Qed.

Lemma contains_trans p q s :
  contains p q = true → contains q s = true → contains p s = true.
Proof.
  rewrite !contains_spec. intros (a & b & ->) (a' & b' & ->).
  exists (a' +:+ a), (b +:+ b'). by rewrite !append_assoc'.
Qed.

Lemma name_matches_weaken c c' f :
  name_matches c c' = true → name_matches c' f = true → name_matches c f = true.
Proof. apply contains_trans. Qed.

Lemma first_file_elem_of csvs c f :
  first_file csvs c = Some f → f ∈ csvs ∧ name_matches c f = true.
Proof.
  intros (pre & post & -> & Hf & _)%first_file_Some. split; [|done].
  apply elem_of_app. right. left.
Qed.

Lemma first_match_shadowed before c after c' csvs :
  name_matches c c' = true →
  first_match (before ++ c :: after ++ [c']) csvs = first_match (before ++ c :: after) csvs.
Proof.
  intros Hsub. induction before as [|b before IH]; simpl.
  - destruct (first_file csvs c) as [f|] eqn:Hc; [done|].
    apply first_file_None in Hc. rewrite Forall_forall in Hc.
    induction after as [|a after IH]; simpl.
    + destruct (first_file csvs c') as [f|] eqn:Hc'; [|done].
      apply first_file_elem_of in Hc' as [Hf Hm].
      pose proof (name_matches_weaken _ _ _ Hsub Hm) as Hcf.
      rewrite (Hc f Hf) in Hcf. done.
    + by destruct (first_file csvs a).
  - by destruct (first_file csvs b).
Qed.

(** X17: the last candidate of the mapping locator, [opcash_category_map],
    never decides: a name that holds it holds the first candidate,
    [category_map], which is tried before.  The locator finds the same file
    with and without it. *)
Theorem mapping_locator_last_candidate_is_shadowed data_raw folder f :
  find_category_map_csv data_raw folder = inr f ↔
  _find_first_csv data_raw folder ["category_map"; "cat_map"; "mapping"; "rollup"] = inr f.
Proof.
  unfold find_category_map_csv, _find_first_csv.
  destruct folder as [[|g csvs]|]; [done| |done].
  pose proof (first_match_shadowed [] "category_map" ["cat_map"; "mapping"; "rollup"]
                "opcash_category_map" (g :: csvs) eq_refl) as Hs.
  change (first_match ["category_map"; "cat_map"; "mapping"; "rollup"; "opcash_category_map"]
            (g :: csvs)
          = first_match ["category_map"; "cat_map"; "mapping"; "rollup"] (g :: csvs)) in Hs.
  rewrite Hs. clear Hs.
  destruct (first_match ["category_map"; "cat_map"; "mapping"; "rollup"] (g :: csvs));
    split; congruence.
Qed.

Lemma first_match_only_file candidates csvs f :
  f ∈ csvs →
  (∃ c, c ∈ candidates ∧ name_matches c f = true) →
  (∀ c g, c ∈ candidates → g ∈ csvs → name_matches c g = true → g = f) →
  first_match candidates csvs = Some f.
Proof.
  intros Hf Hsome Honly. induction candidates as [|c candidates IH].
  { destruct Hsome as (c & Hc & _). by apply elem_of_nil in Hc. }
  simpl. destruct (first_file csvs c) as [g|] eqn:Hc.
  - apply first_file_elem_of in Hc as [Hg Hm]. f_equal.
    apply (Honly c g); [left|done|done].
  - apply first_file_None in Hc. rewrite Forall_forall in Hc. apply IH.
    + destruct Hsome as (c' & [->|Hc']%elem_of_cons & Hm); [|eauto].
      rewrite (Hc f Hf) in Hm. done.
    + intros c' g Hc' Hg. apply Honly; [by right|done].
Qed.

(** X18: the two locators are not disjoint.  In a folder where the only
    file that any transaction candidate accepts is one whose name holds
    [opcash_category_map], the transaction locator returns that file, and
    the mapping locator accepts the folder too. *)
Theorem locators_overlap data_raw csvs f :
  f ∈ csvs →
  name_matches "opcash_category_map" f = true →
  (∀ c g, c ∈ ["deposits"; "withdrawals"; "operating cash"; "dwoc"; "opcash"] →
          g ∈ csvs → name_matches c g = true → g = f) →
  find_deposits_withdrawals_csv data_raw (Some csvs) = inr f
  ∧ ∃ f', find_category_map_csv data_raw (Some csvs) = inr f'
          ∧ name_matches "category_map" f' = true.
Proof.
  intros Hf Hname Honly.
  assert (name_matches "opcash" f = true) as Hdw
    by (eapply name_matches_weaken; [|exact Hname]; by vm_compute).
  assert (name_matches "category_map" f = true) as Hmap
    by (eapply name_matches_weaken; [|exact Hname]; by vm_compute).
  unfold find_deposits_withdrawals_csv, find_category_map_csv, _find_first_csv.
  destruct csvs as [|g csvs]; [by apply elem_of_nil in Hf|].
  split.
  - rewrite (first_match_only_file _ _ f); [done|done| |done].
    exists "opcash". split; [|done]. repeat (first [left|right]).
  - simpl. destruct (first_file (g :: csvs) "category_map") as [f'|] eqn:Hc.
    + apply first_file_elem_of in Hc as [_ Hm]. eauto.
    + apply first_file_None in Hc. rewrite Forall_forall in Hc.
      rewrite (Hc f Hf) in Hmap. done.
Qed.

Lemma locators_overlap_witness :
  find_deposits_withdrawals_csv "data/raw" (Some ["dts_2024.csv"; "OpCash_Category_Map.csv"])
  = inr "OpCash_Category_Map.csv".
Proof.
  refine (proj1 (locators_overlap "data/raw" ["dts_2024.csv"; "OpCash_Category_Map.csv"]
                   "OpCash_Category_Map.csv" _ _ _)).
  - right. left.
  - vm_compute. reflexivity.
  - intros c g Hc Hg Hm.
    apply elem_of_cons in Hg as [->|Hg].
    + exfalso. repeat (apply elem_of_cons in Hc as [->|Hc]; [by vm_compute in Hm|]).
      by apply elem_of_nil in Hc.
    + apply elem_of_cons in Hg as [->|Hg]; [done|]. by apply elem_of_nil in Hg.
Defined.

(** ** Loaded amounts are numbers *)

Lemma shr_1_nonneg mrs : (0 ≤ shr_m mrs)%Z → (0 ≤ shr_m (shr_1 mrs))%Z.
Proof. destruct mrs as [[|[p|p|]|p] r s]; simpl; lia. Qed.

Lemma iter_pos_shr_1_nonneg p mrs :
  (0 ≤ shr_m mrs)%Z → (0 ≤ shr_m (SpecFloat.iter_pos shr_1 p mrs))%Z.
Proof.
  revert mrs. induction p as [p IH|p IH|]; intros mrs Hm; simpl.
  - by apply IH, IH, shr_1_nonneg.
  - by apply IH, IH.
  - by apply shr_1_nonneg.
Qed.

Lemma shr_fexp_nonneg m e l :
  (0 ≤ m)%Z → (0 ≤ shr_m (shr_fexp prec emax m e l).1)%Z.
Proof.
  intros Hm. unfold shr_fexp, shr.
  assert (0 ≤ shr_m (shr_record_of_loc m l))%Z as Hrec by (by destruct l as [|[]]).
  destruct (fexp prec emax (Zdigits2 m + e) - e)%Z; simpl; [done| |done].
  by apply iter_pos_shr_1_nonneg.
Qed.

Lemma round_nearest_even_nonneg m l : (0 ≤ m)%Z → (0 ≤ round_nearest_even m l)%Z.
Proof.
  intros Hm. unfold round_nearest_even. destruct l as [|[]]; try lia.
  destruct (IntDef.Z.even m); lia.
Qed.

Lemma binary_round_aux_notnan sx mx ex lx :
  (0 ≤ mx)%Z → f64_isnan (binary_round_aux prec emax sx mx ex lx) = false.
Proof.
  intros Hm. unfold binary_round_aux.
  pose proof (shr_fexp_nonneg mx ex lx Hm) as H1.
  destruct (shr_fexp prec emax mx ex lx) as [mrs' e']. simpl in H1.
  pose proof (shr_fexp_nonneg _ e' loc_Exact
                (round_nearest_even_nonneg _ (loc_of_shr_record mrs') H1)) as H2.
  destruct (shr_fexp prec emax _ e' loc_Exact) as [mrs'' e'']. simpl in H2.
  destruct (shr_m mrs'') as [|m|m]; [done| |lia].
  by destruct (e'' <=? emax - prec)%Z.
Qed.

(** The product of a number by a finite factor is a number. *)
Lemma f64_mul_notnan x s m e :
  f64_isnan x = false → f64_isnan (f64_mul x (S754_finite s m e)) = false.
Proof.
  intros Hx. destruct x as [sx|sx| |sx mx ex]; try done.
  apply binary_round_aux_notnan. lia.
Qed.

Lemma fillna0_notnan x : f64_isnan (fillna0 x) = false.
Proof. by destruct x. Qed.

(** X19: every amount of the loaded table is a number other than zero: the
    scaling to dollars gives no NaN (a cell that does not read as a number
    is 0 before the scaling, and dropped after it), and zeros of either sign
    are dropped. *)
Theorem loaded_amounts_are_nonzero_numbers file out o :
  load_deposits_withdrawals file = inr out →
  o ∈ out →
  f64_isnan (Txn.transaction_today_amt o) = false
  ∧ ∀ s, Txn.transaction_today_amt o ≠ S754_zero s.
Proof.
  intros Hload Ho. apply (load_deposits_withdrawals_inr _ _ Hload) in Ho
    as (r & t & _ & _ & -> & _ & Hnz).
  split.
  - unfold loaded. simpl. apply f64_mul_notnan, fillna0_notnan.
  - intros s Hs. rewrite Hs in Hnz. by destruct s.
Qed.

Lemma loaded_amounts_are_nonzero_numbers_witness :
  f64_isnan (Txn.transaction_today_amt
               (loaded 1704412800
                  (raw_row "Treasury General Account (TGA)" (Numeric (decimal 125 10)))))
  = false.
Proof.
  refine (proj1 (loaded_amounts_are_nonzero_numbers amounts_file
    [ loaded 1704412800 (raw_row "Treasury General Account (TGA)" (Numeric (decimal 125 10)));
      loaded 1704412800 (raw_row "Treasury General Account (TGA)" (Numeric (decimal 1 10000))) ]
    _ _ _)).
  - vm_compute. reflexivity.
  - left.
Defined.

(** ** Ranks on the sorted table *)

(** X20: on the table sorted by agency and by descending sum, the rank
    within the agency is the row's position among the rows of its agency,
    counted from 1; a row whose sum is NaN has no rank. *)
Theorem rank_is_position_within_agency prog i r :
  stable_sort Drilldown.prog_le prog !! i = Some r →
  Drilldown.rank_within_agency (stable_sort Drilldown.prog_le prog) !! i
  = Some (if decide (numeric r)
          then Some (1 + length (children (Drilldown.agency_rollup r)
                                   (take i (stable_sort Drilldown.prog_le prog))))
          else None).
Proof.
  set (sorted_prog := stable_sort Drilldown.prog_le prog). intros Hi.
  unfold Drilldown.rank_within_agency. rewrite list_lookup_imap, Hi. simpl. f_equal.
  change (rank_at sorted_prog i r
          = if decide (numeric r)
            then Some (1 + length (children (Drilldown.agency_rollup r) (take i sorted_prog)))
            else None).
  destruct (decide (numeric r)) as [Hnum|Hnan]; [|by apply rank_at_nan].
  pose proof (take_drop_middle _ _ _ Hi) as Hsplit.
  assert (length (take i sorted_prog) = i) as Hlen.
  { apply length_take_le. apply lookup_lt_Some in Hi. lia. }
  pose proof (rank_at_sorted (take i sorted_prog) r (drop (S i) sorted_prog)) as Hrank.
  rewrite Hsplit, Hlen in Hrank. apply Hrank; [|done].
  apply stable_sort_StronglySorted.
  - apply prog_le_total.
  - apply prog_le_trans.
Qed.

Lemma rank_is_position_within_agency_witness :
  Drilldown.rank_within_agency (stable_sort Drilldown.prog_le sums) !! 2
  = Some (Some 3).
Proof.
  exact (rank_is_position_within_agency sums 2 (program "IRS" "Audits" 5) eq_refl).
Defined.

(** ** What a schema error names *)

(** X21: a schema error of either loader names the required columns that
    the header lacks: at least one, each once, in alphabetical order, and
    no other column.  The transaction loader reads the header as written;
    the mapping loader reads it stripped, the legacy name renamed. *)
Theorem schema_errors_name_the_missing_columns :
  (∀ file e, load_deposits_withdrawals file = inl e →
     ∃ missing,
       e = ValueError ("Deposits/Withdrawals CSV missing columns: " +:+ py_repr_list missing)
       ∧ missing ≠ [] ∧ NoDup missing ∧ Sorted String.le missing
       ∧ ∀ c, c ∈ missing ↔ c ∈ dw_required ∧ c ∉ dw_columns file)
  ∧ (∀ file e, load_category_map file = inl e →
       ∃ missing,
         e = ValueError ("Mapping file missing columns: " +:+ py_repr_list missing
                         +:+ ". Found: " +:+ py_repr_list (normalise_columns (map_columns file)))
         ∧ missing ≠ [] ∧ NoDup missing ∧ Sorted String.le missing
         ∧ ∀ c, c ∈ missing ↔
                c ∈ map_required ∧ c ∉ normalise_columns (map_columns file)).
Proof.
  assert (∀ s : gset string, s ≠ ∅ → sorted s ≠ []) as Hne.
  { intros s Hs Hnil. apply Hs. apply elem_of_equiv_empty_L. intros c Hc.
    apply sorted_elem_of in Hc. rewrite Hnil in Hc. by apply elem_of_nil in Hc. }
  split.
  - intros file e. unfold load_deposits_withdrawals. case_decide as Hmiss; [|done].
    intros [= <-]. eexists. split; [done|].
    split_and!; [by apply Hne|apply sorted_NoDup|apply sorted_Sorted|].
    apply missing_columns_named.
  - intros file e. unfold load_category_map. case_decide as Hmiss; [|done].
    intros [= <-]. eexists. split; [done|].
    split_and!; [by apply Hne|apply sorted_NoDup|apply sorted_Sorted|].
    apply missing_columns_named.
Qed.

(** ** The unmapped diagnostics *)

(** X22: the diagnostics under the figure read the selection after the
    unmapped filter: with "Show unmapped" off they always report that no
    category is unmapped, whatever the table holds.  With it on, they warn
    exactly when the date range holds a row whose cabinet is "Unmapped",
    give the number of such rows, and list at most 50 groups, each the key
    of one of these rows. *)
Theorem unmapped_diagnostics_follow_the_filter fsum df start_date end_date :
  unmapped_diagnostics fsum (select_range df start_date end_date false) = NoUnmapped
  ∧ (unmapped_diagnostics fsum (select_range df start_date end_date true) = NoUnmapped ↔
     ∀ r, r ∈ select_range df start_date end_date true →
          Enriched.cabinet_supercategory r ≠ Some "Unmapped")
  ∧ (∀ n top,
       unmapped_diagnostics fsum (select_range df start_date end_date true)
       = UnmappedWarning n top →
       n = length (filter (λ r, Enriched.cabinet_supercategory r = Some "Unmapped")
                     (select_range df start_date end_date true))
       ∧ 0 < n ∧ length top ≤ 50
       ∧ ∀ ty catg desc v, (ty, catg, desc, v) ∈ top →
           ∃ r, r ∈ select_range df start_date end_date true
                ∧ Enriched.cabinet_supercategory r = Some "Unmapped"
                ∧ Txn.transaction_type (Enriched.txn_of r) = Some ty
                ∧ Txn.transaction_catg (Enriched.txn_of r) = Some catg
                ∧ Txn.transaction_catg_desc (Enriched.txn_of r) = Some desc).
Proof.
  assert (∀ c : cell, eq_label c "Unmapped" = true ↔ c = Some "Unmapped") as Hlabel.
  { intros [c|]; simpl; [|done]. rewrite bool_decide_eq_true. split; congruence. }
  split_and!.
  - unfold unmapped_diagnostics, select_range.
    rewrite list_filter_filter.
    assert (filter (λ r, eq_label (Enriched.cabinet_supercategory r) "Unmapped" = true
                         ∧ ne_label (Enriched.cabinet_supercategory r) "Unmapped" = true)
              (filter (λ r, (start_date ≤ date_of (Txn.record_date (Enriched.txn_of r)))%Z
                            ∧ (date_of (Txn.record_date (Enriched.txn_of r)) ≤ end_date)%Z)
                 df) = []) as ->; [|done].
    induction (filter _ df) as [|r l IH]; [done|].
    rewrite filter_cons. case_decide as Hr; [|done]. exfalso.
    destruct Hr as [Heq Hne]. destruct (Enriched.cabinet_supercategory r) as [c|]; [|done].
    simpl in Heq, Hne. apply bool_decide_eq_true in Heq, Hne. done.
  - unfold unmapped_diagnostics. case_decide as Hlen.
    + split; [done|]. intros Hall. exfalso.
      destruct (filter _ (select_range df start_date end_date true)) as [|r l] eqn:Hf;
        [simpl in Hlen; lia|].
      assert (r ∈ filter (λ r, eq_label (Enriched.cabinet_supercategory r) "Unmapped" = true)
                    (select_range df start_date end_date true)) as Hr by (rewrite Hf; left).
      apply list_elem_of_filter in Hr as [Hr%Hlabel Hin]. by apply (Hall r).
    + split; [|done]. intros _ r Hr Hc.
      apply Hlen. apply Hlabel in Hc.
      assert (r ∈ filter (λ r, eq_label (Enriched.cabinet_supercategory r) "Unmapped" = true)
                    (select_range df start_date end_date true)) as Hin
        by (by apply list_elem_of_filter).
      destruct (filter _ (select_range df start_date end_date true));
        [by apply elem_of_nil in Hin|simpl; lia].
  - intros n top. unfold unmapped_diagnostics. case_decide as Hlen; [|done].
    intros [= <- <-]. split_and!.
    + f_equal. apply list_filter_iff. intros r. apply Hlabel.
    + done.
    + unfold top_unmapped. apply firstn_le_length.
    + intros ty catg desc v Hin. unfold top_unmapped in Hin.
      apply elem_of_take in Hin as (i & Hin%list_elem_of_lookup_2 & _).
      rewrite stable_sort_Permutation in Hin.
      apply groupby_sum_elem_of in Hin as [(r & Hr & Hkey) _].
      apply list_elem_of_filter in Hr as [Hc%Hlabel Hr].
      exists r. split_and!; [done|done|..];
        destruct (Txn.transaction_type (Enriched.txn_of r)),
                 (Txn.transaction_catg (Enriched.txn_of r)),
                 (Txn.transaction_catg_desc (Enriched.txn_of r));
        simpl in Hkey; congruence.
Qed.

(** ** Repeated labels *)

Lemma node_index_from_last (l : list string) n (m : gmap string nat) x :
  x ∈ l →
  ∃ j, foldl (λ m il, <[il.2 := il.1]> m) m (zip (seq n (length l)) l) !! x = Some (n + j)
       ∧ l !! j = Some x
       ∧ ∀ k, j < k → l !! k ≠ Some x.
Proof.
  revert n m. induction l as [|y l IH]; intros n m Hx; [by apply elem_of_nil in Hx|].
  simpl. destruct (decide (x ∈ l)) as [Hin|Hnin].
  - destruct (IH (S n) (<[y:=n]> m) Hin) as (j & Hj & Hl & Hlast).
    exists (S j). split_and!; [rewrite Hj; f_equal; lia|done|].
    intros [|k] Hk; [lia|]. simpl. apply Hlast. lia.
  - apply elem_of_cons in Hx as [->|Hx]; [|done].
    exists 0. split_and!; [|done|].
    + rewrite node_index_from_not_elem_of by done.
      rewrite lookup_insert_eq. f_equal. lia.
    + intros [|k] Hk; [lia|]. simpl. intros Hk'.
      by apply Hnin, (list_elem_of_lookup_2 _ k).
Qed.

(** X23: the dictionary of positions holds exactly the labels of the node
    list, and gives each label its last position: when a label is
    repeated, every edge looked up under it is attached to the last node
    that carries it; when the labels are distinct, the position is the
    node's own. *)
Theorem node_index_is_last_position nodes x :
  (x ∉ nodes → node_index nodes !! x = None)
  ∧ (x ∈ nodes →
     ∃ i, node_index nodes !! x = Some i
          ∧ nodes !! i = Some x
          ∧ ∀ k, i < k → nodes !! k ≠ Some x)
  ∧ (NoDup nodes → ∀ i, nodes !! i = Some x → node_index nodes !! x = Some i).
Proof.
  split_and!.
  - intros Hx. unfold node_index. by rewrite node_index_from_not_elem_of.
  - intros Hx. unfold node_index.
    destruct (node_index_from_last nodes 0 ∅ x Hx) as (j & Hj & Hl & Hlast). eauto.
  - intros Hnd i Hi. by apply node_index_NoDup.
Qed.
